(** * functional.py: function combinators

    A shallow embedding of the combinators of [functional.py]:
    [is_eventually_periodic] (tortoise and hare), [memoize] with its closure
    [lookup_f] and the dictionary [results], [counter] with its closure [cf],
    the recursive [fib] that is rebound to its memoized version, and the
    module-level statement [memoize = memoize(memoize)].

    Python function objects live in a heap and are referred to by their
    index, so that [is] (reference identity) is equality of indices and the
    dictionaries captured by closures are shared, mutable state. *)

From Stdlib Require Import ZArith Lia.
From stdpp Require Import gmap strings list.

Local Open Scope string_scope.
Local Open Scope list_scope.
Local Open Scope Z_scope.

(** ** The cycle detector

    [[
    def is_eventually_periodic(f, x, giveup=1000):
        tortoise, hare = x, f(x)
        while tortoise != hare and giveup > 0:
            tortoise = f(tortoise)
            hare = f(f(hare))
            giveup -= 1
        return tortoise == hare
    ]]

    The iteration function is a total function on a type with a boolean
    equality test; [giveup] is a Python integer and may be zero or
    negative, in which case the loop body never runs. *)

Module Periodic.

Section Detector.
Context {T : Type}.
Variable eqb : T -> T -> bool.
Variable f : T -> T.

(** The three loop variables. *)
Record cursors := Cursors { tortoise : T; hare : T; giveup : Z }.

(** The loop condition [tortoise != hare and giveup > 0]. *)
Definition continues (c : cursors) : bool :=
  negb (eqb (tortoise c) (hare c)) && (0 <? giveup c).

(** One execution of the loop body. *)
Definition round (c : cursors) : cursors :=
  Cursors (f (tortoise c)) (f (f (hare c))) (giveup c - 1).

(** The while loop, unrolled at most [n] times. *)
Fixpoint while (n : nat) (c : cursors) : cursors :=
  match n with
  | O => c
  | S n' => if continues c then while n' (round c) else c
  end.

(** The assignment [tortoise, hare = x, f(x)]. *)
Definition start (x : T) (g : Z) : cursors := Cursors x (f x) g.

(** The state in which the loop is left: [giveup] decreases by one in
    every round, so [Z.to_nat giveup] unrollings reach the exit
    ([while_exits] below). *)
Definition final (x : T) (g : Z) : cursors :=
  while (Z.to_nat g) (start x g).

Definition is_eventually_periodic (x : T) (g : Z) : bool :=
  let c := final x g in eqb (tortoise c) (hare c).

(** The number of rounds the loop ran. *)
Definition rounds (x : T) (g : Z) : Z := g - giveup (final x g).

(** [f] applied [k] times. *)
Fixpoint iter (k : nat) (x : T) : T :=
  match k with
  | O => x
  | S k' => f (iter k' x)
  end.

(** The cursors of the source after [k] rounds from the seed [x], when
    the loop gets that far: the tortoise has made [k] steps, the hare
    [2k+1] ([while_trace] below). *)
Definition at_round (x : T) (g : Z) (k : nat) : cursors :=
  Cursors (iter k x) (iter (S (k + k)) x) (g - Z.of_nat k).

(** The detector as section 4.3 of the specification words it: the
    tortoise starts at [f(x0)], the hare at [f(f(x0))]; the rounds and
    the two exits are the same. *)
Definition canonical_start (x : T) (g : Z) : cursors :=
  Cursors (f x) (f (f x)) g.

Definition canonical_detect (x : T) (g : Z) : bool :=
  let c := while (Z.to_nat g) (canonical_start x g) in
  eqb (tortoise c) (hare c).
End Detector.

(** The default value of the parameter [giveup]. *)
Definition giveup_default : Z := 1000.

End Periodic.

(** ** Python values

    The values the combinators are exercised on: [None], integers, strings,
    tuples, lists (mutable, hence not hashable) and function objects, which
    are references into the heap.  On these, Python's [==] is structural
    equality, and [is] on function objects is equality of references. *)

#[warnings="-register-all"]
Inductive value : Type :=
| VNone
| VInt (n : Z)
| VStr (s : string)
| VTuple (xs : list value)
| VList (xs : list value)
| VFun (id : nat).

(** Induction that reaches inside tuples and lists. *)
Lemma value_nested_ind (P : value -> Prop) :
  P VNone ->
  (forall n, P (VInt n)) ->
  (forall s, P (VStr s)) ->
  (forall xs, Forall P xs -> P (VTuple xs)) ->
  (forall xs, Forall P xs -> P (VList xs)) ->
  (forall id, P (VFun id)) ->
  forall v, P v.
Proof.
  intros HN HI HS HT HL HF.
  fix IH 1. intros [ | n | s | xs | xs | id ].
  - exact HN.
  - apply HI.
  - apply HS.
  - apply HT. induction xs as [ | x xs IHxs ]; constructor;
      [ apply IH | exact IHxs ].
  - apply HL. induction xs as [ | x xs IHxs ]; constructor;
      [ apply IH | exact IHxs ].
  - apply HF.
Qed.

Definition value_leaf : Type := (unit + Z) + (string + nat).

Fixpoint value_to_tree (v : value) : gen_tree value_leaf :=
  match v with
  | VNone => GenLeaf (inl (inl tt))
  | VInt n => GenLeaf (inl (inr n))
  | VStr s => GenLeaf (inr (inl s))
  | VFun id => GenLeaf (inr (inr id))
  | VTuple xs => GenNode 0 (map value_to_tree xs)
  | VList xs => GenNode 1 (map value_to_tree xs)
  end.

Fixpoint value_of_tree (t : gen_tree value_leaf) : value :=
  match t with
  | GenLeaf (inl (inl _)) => VNone
  | GenLeaf (inl (inr n)) => VInt n
  | GenLeaf (inr (inl s)) => VStr s
  | GenLeaf (inr (inr id)) => VFun id
  | GenNode O ts => VTuple (map value_of_tree ts)
  | GenNode _ ts => VList (map value_of_tree ts)
  end.

Lemma value_of_to_tree (v : value) : value_of_tree (value_to_tree v) = v.
Proof.
  induction v as [ | n | s | xs IH | xs IH | id ] using value_nested_ind;
    simpl; try reflexivity.
  - f_equal. induction IH as [ | x xs Hx _ IHxs ]; simpl; congruence.
  - f_equal. induction IH as [ | x xs Hx _ IHxs ]; simpl; congruence.
Qed.

#[global] Instance value_eq_dec : EqDecision value.
Proof.
  intros v w. destruct (decide (value_to_tree v = value_to_tree w)) as [E | E].
  - left. rewrite <- (value_of_to_tree v), <- (value_of_to_tree w).
    now rewrite E.
  - right. intros ->. now apply E.
Defined.

#[global] Instance value_countable : Countable value :=
  inj_countable' value_to_tree value_of_tree value_of_to_tree.

(** [hash(v)] succeeds: lists are not hashable, and a tuple is hashable
    when all of its elements are. *)
Fixpoint hashable (v : value) : bool :=
  match v with
  | VList _ => false
  | VTuple xs => forallb hashable xs
  | _ => true
  end.

(** The exceptions the modelled code can raise: [TypeError] for an
    unhashable dictionary key, for a call that does not fit the signature,
    for an operand of the wrong type and for a call of something that is
    not callable; [NameError] for an unbound module-level name. *)
Inductive exn : Type :=
| TypeError_unhashable
| TypeError_signature
| TypeError_operand
| TypeError_not_callable
| NameError (name : string).

(** ** Function objects, the heap and the module state *)

(** Keyword arguments of a call, in the order they are written. *)
Definition kwargs : Type := list (string * value).

(** The body of a [def], run on the values bound to its parameters: it
    returns, raises, reads a module-level name (looked up when the body
    runs, which is how [fib] reaches its memoized version), or calls a
    function object and goes on with the result. *)
Inductive body : Type :=
| Return (v : value)
| Raise (e : exn)
| LoadGlobal (name : string) (k : value -> body)
| Call (fn : value) (args : list value) (kw : kwargs) (k : value -> body).

(** A dictionary keyed by argument tuples: [results] of [memoize]. *)
Abbreviation dict := (gmap (list value) value).

(** The function objects of the module.
    - [Def params code]: a [def] with the named parameters [params];
    - [Memoize]: [def memoize(f)];
    - [LookupF f results]: a closure [lookup_f] made by [memoize], with the
      [f] and the dictionary [results] it captured ([lookup_f.results] is
      that same dictionary);
    - [Counter]: [def counter(f)];
    - [Cf f count]: a closure [cf] made by [counter], with the [f] it
      captured and the content [count[0]] of its one-element list. *)
Inductive fobj : Type :=
| Def (params : list string) (code : list value -> body)
| Memoize
| LookupF (f : value) (results : dict)
| Counter
| Cf (f : value) (count : Z).

Record state : Type := State {
  heap : list fobj;
  globals : gmap string value
}.

Inductive outcome (A : Type) : Type :=
| Ok (a : A) (st : state)
| Exn (e : exn) (st : state)
| OutOfFuel.
Arguments Ok {A} a st.
Arguments Exn {A} e st.
Arguments OutOfFuel {A}.

(** Sequencing of steps that thread the state and stop at an exception. *)
Definition bind {A B : Type} (m : state -> outcome A)
    (k : A -> state -> outcome B) : state -> outcome B :=
  fun st =>
    match m st with
    | Ok a st' => k a st'
    | Exn e st' => Exn e st'
    | OutOfFuel => OutOfFuel
    end.

Notation "'let*' x ':=' m 'in' k" := (bind m (fun x => k))
  (at level 10, x name, m at level 100, k at level 200).

(** Binding of the arguments of a call to the parameters of a [def]
    without defaults: positional arguments first, the remaining parameters
    by keyword; a missing, doubled, surplus or unknown argument is a
    [TypeError]. *)
Fixpoint kw_find (name : string) (kw : kwargs) : option value :=
  match kw with
  | [] => None
  | (n, v) :: kw' => if decide (n = name) then Some v else kw_find name kw'
  end.

Fixpoint kw_remove (name : string) (kw : kwargs) : kwargs :=
  match kw with
  | [] => []
  | (n, v) :: kw' =>
      if decide (n = name) then kw_remove name kw'
      else (n, v) :: kw_remove name kw'
  end.

Fixpoint bind_params (params : list string) (args : list value) (kw : kwargs)
    : option (list value) :=
  match params, args with
  | [], [] => match kw with [] => Some [] | _ :: _ => None end
  | [], _ :: _ => None
  | p :: ps, a :: args' =>
      match kw_find p kw with
      | Some _ => None
      | None => option_map (cons a) (bind_params ps args' kw)
      end
  | p :: ps, [] =>
      match kw_find p kw with
      | Some v => option_map (cons v) (bind_params ps [] (kw_remove p kw))
      | None => None
      end
  end.

(** A new function object; its reference is the next free index. *)
Definition alloc (o : fobj) (st : state) : nat * state :=
  (length (heap st), State (heap st ++ [o]) (globals st)).

(** [results[args] = res] in the dictionary of the closure [id]. *)
Definition store_result (id : nat) (args : list value) (res : value)
    (st : state) : state :=
  match heap st !! id with
  | Some (LookupF f results) =>
      State (<[id := LookupF f (<[args := res]> results)]> (heap st))
            (globals st)
  | _ => st
  end.

(** [count[0] += 1] in the closure [id]. *)
Definition increment (id : nat) (st : state) : state :=
  match heap st !! id with
  | Some (Cf f count) =>
      State (<[id := Cf f (count + 1)]> (heap st)) (globals st)
  | _ => st
  end.

(** ** Calls

    [exec] runs a body, given the function that performs a call; [call]
    applies a function object to positional and keyword arguments.  The
    recursion of Python calls is not structural, so [call] counts the
    nesting depth of calls down from [fuel]; the interpreter's own limit
    on that depth is not modelled.

    [[
    def memoize(f):
        results = {}
        def lookup_f( *args):
            res = results.get(args, None)
            if res is None:
                res = f( *args)
                results[args] = res
            return res
        lookup_f.results = results
        return lookup_f

    def counter(f):
        count = [0]
        def cf( *args, **kwargs):
            nonlocal count
            count[0] += 1
            return f( *args, **kwargs)
        ...
        return cf
    ]]  *)

Fixpoint exec (callf : value -> list value -> kwargs -> state -> outcome value)
    (b : body) (st : state) : outcome value :=
  match b with
  | Return v => Ok v st
  | Raise e => Exn e st
  | LoadGlobal name k =>
      match globals st !! name with
      | Some v => exec callf (k v) st
      | None => Exn (NameError name) st
      end
  | Call fn args kw k =>
      match callf fn args kw st with
      | Ok v st' => exec callf (k v) st'
      | Exn e st' => Exn e st'
      | OutOfFuel => OutOfFuel
      end
  end.

Fixpoint call (fuel : nat) (fn : value) (args : list value) (kw : kwargs)
    (st : state) : outcome value :=
  match fuel with
  | O => OutOfFuel
  | S fuel' =>
      match fn with
      | VFun id =>
          match heap st !! id with
          | Some (Def params code) =>
              match bind_params params args kw with
              | Some vs => exec (call fuel') (code vs) st
              | None => Exn TypeError_signature st
              end
          | Some Memoize =>
              match bind_params ["f"] args kw with
              | Some [f] =>
                  let (id', st') := alloc (LookupF f ∅) st in
                  Ok (VFun id') st'
              | _ => Exn TypeError_signature st
              end
          | Some (LookupF f results) =>
              match kw with
              | _ :: _ => Exn TypeError_signature st
              | [] =>
                  if forallb hashable args then
                    match default VNone (results !! args) with
                    | VNone =>
                        match call fuel' f args [] st with
                        | Ok res st' => Ok res (store_result id args res st')
                        | Exn e st' => Exn e st'
                        | OutOfFuel => OutOfFuel
                        end
                    | res => Ok res st
                    end
                  else Exn TypeError_unhashable st
              end
          | Some Counter =>
              match bind_params ["f"] args kw with
              | Some [f] =>
                  let (id', st') := alloc (Cf f 0) st in
                  Ok (VFun id') st'
              | _ => Exn TypeError_signature st
              end
          | Some (Cf f _) => call fuel' f args kw (increment id st)
          | None => Exn TypeError_not_callable st
          end
      | _ => Exn TypeError_not_callable st
      end
  end.

(** [name(args)] at module level: the name is looked up, then called. *)
Definition call_name (fuel : nat) (name : string) (args : list value)
    (kw : kwargs) (st : state) : outcome value :=
  match globals st !! name with
  | Some fn => call fuel fn args kw st
  | None => Exn (NameError name) st
  end.

(** [name = v] at module level. *)
Definition assign (name : string) (v : value) (st : state) : outcome unit :=
  Ok tt (State (heap st) (<[name := v]> (globals st))).

(** [lookup_f.results], [cf.get_count()] and [cf.reset_count()]. *)
Definition results_of (st : state) (id : nat) : option dict :=
  match heap st !! id with
  | Some (LookupF _ results) => Some results
  | _ => None
  end.

Definition get_count (st : state) (id : nat) : option Z :=
  match heap st !! id with
  | Some (Cf _ count) => Some count
  | _ => None
  end.

Definition reset_count (id : nat) (st : state) : state :=
  match heap st !! id with
  | Some (Cf f _) => State (<[id := Cf f 0]> (heap st)) (globals st)
  | _ => st
  end.

(** ** The functions of the module *)

(** [a + b]: addition of integers, concatenation of two strings, two
    tuples or two lists; any other pair of operands is a [TypeError]. *)
Definition py_add (a b : value) : option value :=
  match a, b with
  | VInt x, VInt y => Some (VInt (x + y))
  | VStr x, VStr y => Some (VStr (x ++ y)%string)
  | VTuple x, VTuple y => Some (VTuple (x ++ y))
  | VList x, VList y => Some (VList (x ++ y))
  | _, _ => None
  end.

(** [[
    def fib(n):
        if n < 2:
            return 1
        else:
            return fib(n-1) + fib(n-2)
    ]]
    The two recursive calls go through the module-level name [fib], the
    left operand of [+] first. *)
Definition fib_code (vs : list value) : body :=
  match vs with
  | [VInt n] =>
      if n <? 2 then Return (VInt 1)
      else
        LoadGlobal "fib" (fun fib1 =>
        Call fib1 [VInt (n - 1)] [] (fun a =>
        LoadGlobal "fib" (fun fib2 =>
        Call fib2 [VInt (n - 2)] [] (fun b =>
        match py_add a b with
        | Some r => Return r
        | None => Raise TypeError_operand
        end))))
  | _ => Raise TypeError_operand
  end.

(** [def kf(x): return x]. *)
Definition kf_code (vs : list value) : body :=
  match vs with
  | [x] => Return x
  | _ => Raise TypeError_signature
  end.

(** A [def] that computes its result from its arguments alone, without
    calling anything or touching the state. *)
Definition pure (params : list string) (f : list value -> value) : fobj :=
  Def params (fun vs => Return (f vs)).

(** The module after its [def] statements, before any of the module-level
    rebindings ([fib = memoize(fib)], [memoize = memoize(memoize)],
    [kf = counter(kf)]) has run. *)
Definition module_heap : list fobj :=
  [ Memoize;
    Def ["n"] fib_code;
    Counter;
    Def ["x"] kf_code ].

(** The references of the four function objects, and the reference of the
    [k]-th function object made after them. *)
Definition memoize_def : nat := 0.
Definition fib_def : nat := 1.
Definition counter_def : nat := 2.
Definition kf_def : nat := 3.
Definition made (k : nat) : nat := (length module_heap + k)%nat.

Definition module_globals : gmap string value :=
  <["memoize" := VFun memoize_def]> (<["fib" := VFun fib_def]>
  (<["counter" := VFun counter_def]> (<["kf" := VFun kf_def]> ∅))).

Definition module : state := State module_heap module_globals.

(** The statement [target = fn(arg)], all three being module-level names:
    [fib = memoize(fib)], [memoize = memoize(memoize)] and
    [kf = counter(kf)] have this shape. *)
Definition rebind (fuel : nat) (target fn arg : string)
    : state -> outcome unit :=
  fun st =>
    match globals st !! arg with
    | Some a =>
        (let* v := call_name fuel fn [a] [] in assign target v) st
    | None => Exn (NameError arg) st
    end.

(** The state in which a step ended, when it ended without running out of
    fuel. *)
Definition state_after {A : Type} (o : outcome A) (dflt : state) : state :=
  match o with
  | Ok _ st => st
  | Exn _ st => st
  | OutOfFuel => dflt
  end.

(** The module once [memoize = memoize(memoize)] has run. *)
Definition self_memoized : state :=
  state_after (rebind 2 "memoize" "memoize" "memoize" module) module.

(** The module once [fib = memoize(fib)] has run. *)
Definition fib_memoized : state :=
  state_after (rebind 2 "fib" "memoize" "fib" module) module.

(** [lambda x: None], a pure function whose result is [None]. *)
Definition returns_none : fobj := pure ["x"] (fun _ => VNone).

(** The module with one more function object, next to the ones it has. *)
Definition module_with (o : fobj) : state :=
  State (module_heap ++ [o]) module_globals.

(** The module after [kf = memoize(kf)]. *)
Definition kf_memoized : state :=
  state_after (rebind 2 "kf" "memoize" "kf" module) module.

(** The module-level name [memoize] is bound to the closure [w] that
    [memoize(memoize)] returned: a [lookup_f] around the original
    [memoize], with the dictionary [results] of wrappers made so far. *)
Definition self_applied (st : state) (w m : nat) (results : dict) : Prop :=
  globals st !! "memoize" = Some (VFun w) /\
  heap st !! w = Some (LookupF (VFun m) results) /\
  heap st !! m = Some Memoize.

(** Every wrapper the self-applied operator has cached is a function
    object that exists and is newer than its target. *)
Definition newer_wrappers (st : state) (results : dict) : Prop :=
  forall (a : nat) (v : value),
    results !! [VFun a] = Some v ->
    exists b : nat, v = VFun b /\ (a < b < length (heap st))%nat.

(** Every value the self-applied operator has cached for a function
    object is a closure [lookup_f] that exists and that captured that
    function object. *)
Definition cached_wrappers (st : state) (results : dict) : Prop :=
  forall (a : nat) (v : value),
    results !! [VFun a] = Some v ->
    exists (b : nat) (r : dict),
      v = VFun b /\ heap st !! b = Some (LookupF (VFun a) r).

(** [keeps_entries st st']: every entry of every dictionary [results]
    that holds a value other than [None] in [st] is there in [st'], in
    the dictionary of the same closure, with the same value. *)
Definition keeps_entries (st st' : state) : Prop :=
  forall (id : nat) (f : value) (results : dict) (k : list value)
         (v : value),
    heap st !! id = Some (LookupF f results) ->
    results !! k = Some v ->
    v <> VNone ->
    exists results' : dict,
      heap st' !! id = Some (LookupF f results') /\ results' !! k = Some v.

(** The state in which a step ended keeps the entries of [st]. *)
Definition ends_keeping {A : Type} (st : state) (o : outcome A) : Prop :=
  match o with
  | Ok _ st' => keeps_entries st st'
  | Exn _ st' => keeps_entries st st'
  | OutOfFuel => True
  end.

(** ** Scenarios: the two compositions of [counter] and [memoize] *)

(** [m()] inside [try ... except]: the scenario goes on after an
    exception, in the state the exception left, and records that the call
    raised. *)
Definition attempt {A : Type} (m : state -> outcome A)
    : state -> outcome (option A) :=
  fun st =>
    match m st with
    | Ok a st' => Ok (Some a) st'
    | Exn _ st' => Ok None st'
    | OutOfFuel => OutOfFuel
    end.

Definition count_of (st : state) (c : value) : option Z :=
  match c with
  | VFun id => get_count st id
  | _ => None
  end.

(** [c = counter(f); g = memoize(c)], two calls [g( *x)], then
    [c.get_count()]: the count of the inner, counted [f]. *)
Definition memoize_of_counted (fuel : nat) (f : value) (x : list value)
    : state -> outcome (option value * option value * option Z) :=
  let* c := call_name fuel "counter" [f] [] in
  let* g := call_name fuel "memoize" [c] [] in
  let* r1 := attempt (call fuel g x []) in
  let* r2 := attempt (call fuel g x []) in
  fun st => Ok (r1, r2, count_of st c) st.

(** [g = memoize(f); c = counter(g)], two calls [c( *x)], then
    [c.get_count()]: the count of the outer counter. *)
Definition counted_of_memoize (fuel : nat) (f : value) (x : list value)
    : state -> outcome (option value * option value * option Z) :=
  let* g := call_name fuel "memoize" [f] [] in
  let* c := call_name fuel "counter" [g] [] in
  let* r1 := attempt (call fuel c x []) in
  let* r2 := attempt (call fuel c x []) in
  fun st => Ok (r1, r2, count_of st c) st.

(** [g = memoize(f); r = g( *x)], then [r] and the entries of [g.results]. *)
Definition cache_after_call (fuel : nat) (f : value) (x : list value)
    : state -> outcome (value * option (list (list value * value))) :=
  let* g := call_name fuel "memoize" [f] [] in
  let* r := call fuel g x [] in
  fun st =>
    Ok (r, match g with
           | VFun id => map_to_list <$> results_of st id
           | _ => None
           end) st.

(** The names [memoize] and [counter] are bound to the two [def]s. *)
Definition combinators_bound (st : state) : Prop :=
  exists mz ct : nat,
    globals st !! "memoize" = Some (VFun mz) /\
    heap st !! mz = Some Memoize /\
    globals st !! "counter" = Some (VFun ct) /\
    heap st !! ct = Some Counter.

(** The step ends without an exception and its result is [a]. *)
Definition returns {A : Type} (o : outcome A) (a : A) : Prop :=
  match o with
  | Ok a' _ => a' = a
  | _ => False
  end.

(** ** A map for the cycle detector *)

(** The map [0 -> 1 -> 2 -> 3 -> 2]: two steps lead into a cycle of
    length two. *)
Definition rho (x : Z) : Z := if x <? 3 then x + 1 else 2.

(** ** Rising and falling powers, and the maximum of functions

    [[
    def falling_power(n, k):
        return reduce(mul, reversed(range(n-k+1, n+1)))

    def rising_power(n, k):
        return reduce(mul, range(n, n+k))

    def max_func( *args):
        funcs = args
        def our_max_f( *args):
            return max((f( *args) for f in funcs))
        return our_max_f
    ]]

    The arguments of the two powers are integers.  [reduce] without an
    initial value and [max] raise on an empty sequence ([TypeError] and
    [ValueError]); [None] stands for that exception. *)

(** [range(a, b)]. *)
Definition py_range (a b : Z) : list Z := seqZ a (b - a).

(** [reduce(op, xs)]: the elements are combined from the left. *)
Definition reduce (op : Z -> Z -> Z) (xs : list Z) : option Z :=
  match xs with
  | [] => None
  | x :: xs' => Some (fold_left op xs' x)
  end.

Definition falling_power (n k : Z) : option Z :=
  reduce Z.mul (reverse (py_range (n - k + 1) (n + 1))).

Definition rising_power (n k : Z) : option Z :=
  reduce Z.mul (py_range n (n + k)).

(** [max(xs)] on integers. *)
Definition py_max (xs : list Z) : option Z :=
  match xs with
  | [] => None
  | x :: xs' => Some (fold_left Z.max xs' x)
  end.

(** [max_func( *funcs)] for integer-valued functions of one common
    argument list: the function [our_max_f] it returns. *)
Definition max_func {A : Type} (funcs : list (A -> Z)) : A -> option Z :=
  fun a => py_max ((fun f => f a) <$> funcs).

(** The product of the elements of a list. *)
Definition product (xs : list Z) : Z := foldr Z.mul 1 xs.

(** ** Hofstadter's Q sequence, tabulated

    [[
    Q = [0, 1, 1]

    def hof_qt(n):
        if n >= len(Q):
            for i in range(len(Q), n + 1):
                Q.append(Q[i - Q[i-1]] + Q[i - Q[i-2]])
        return Q[n]
    ]]

    The table [Q] is a module-level list that [hof_qt] extends in place;
    the model passes it in and returns it with the result.  [None] as a
    result stands for the [IndexError] of an index outside the list. *)

(** [Q[i]]: a negative index counts from the end of the list. *)
Definition py_index (Q : list Z) (i : Z) : option Z :=
  if 0 <=? i then Q !! Z.to_nat i
  else if - Z.of_nat (length Q) <=? i
       then Q !! Z.to_nat (Z.of_nat (length Q) + i)
       else None.

(** [Q.append(Q[i - Q[i-1]] + Q[i - Q[i-2]])]. *)
Definition hof_append (Q : list Z) (i : Z) : option (list Z) :=
  match py_index Q (i - 1) with
  | None => None
  | Some a =>
      match py_index Q (i - a) with
      | None => None
      | Some x =>
          match py_index Q (i - 2) with
          | None => None
          | Some b =>
              match py_index Q (i - b) with
              | None => None
              | Some y => Some (Q ++ [x + y])
              end
          end
      end
  end.

(** The [for] loop over the indices [idx]: it stops at the first
    [IndexError], with the entries appended so far. *)
Fixpoint hof_fill (idx : list Z) (Q : list Z) : bool * list Z :=
  match idx with
  | [] => (true, Q)
  | i :: idx' =>
      match hof_append Q i with
      | Some Q' => hof_fill idx' Q'
      | None => (false, Q)
      end
  end.

Definition hof_qt (n : Z) (Q : list Z) : option Z * list Z :=
  if Z.of_nat (length Q) <=? n then
    match hof_fill (py_range (Z.of_nat (length Q)) (n + 1)) Q with
    | (true, Q') => (py_index Q' n, Q')
    | (false, Q') => (None, Q')
    end
  else (py_index Q n, Q).

(** ** What a call may change

    [same_object o o'] relates a function object to what a call may have
    made of it: a [def], [memoize] and [counter] stay what they are; a
    closure [lookup_f] keeps the function it captured and every key of
    its dictionary; a closure [cf] keeps the function it captured and its
    count does not go down. *)
Definition same_object (o o' : fobj) : Prop :=
  match o, o' with
  | LookupF f results, LookupF f' results' =>
      f' = f /\ forall k, is_Some (results !! k) -> is_Some (results' !! k)
  | Cf f count, Cf f' count' => f' = f /\ count <= count'
  | _, _ => o' = o
  end.

(** [grows st st']: the module-level names are bound as before, and every
    function object is still there, as [same_object] allows. *)
Definition grows (st st' : state) : Prop :=
  globals st' = globals st /\
  forall id o, heap st !! id = Some o ->
    exists o', heap st' !! id = Some o' /\ same_object o o'.

(** The state in which a step ended has grown from the state [st]. *)
Definition ends_grown {A : Type} (st : state) (o : outcome A) : Prop :=
  match o with
  | Ok _ st' => grows st st'
  | Exn _ st' => grows st st'
  | OutOfFuel => True
  end.

(** [k] calls [fn( *args, **kw)] in a row, the results dropped. *)
Fixpoint call_times (k : nat) (fuel : nat) (fn : value) (args : list value)
    (kw : kwargs) : state -> outcome unit :=
  match k with
  | O => fun st => Ok tt st
  | S k' =>
      let* _ := call fuel fn args kw in call_times k' fuel fn args kw
  end.

(** The module after [kf = counter(kf)]. *)
Definition kf_counted : state :=
  state_after (rebind 2 "kf" "counter" "kf" module) module.

(** A call of a [def] that fails at once: the arguments do not fit the
    parameters, or the body raises. *)
Definition fails_at_once (params : list string) (code : list value -> body)
    (args : list value) (kw : kwargs) (e : exn) : Prop :=
  (bind_params params args kw = None /\ e = TypeError_signature) \/
  (exists vs, bind_params params args kw = Some vs /\ code vs = Raise e).

(** ** The memoized [fib] in general

    [fib_value n] is what the recursion of [fib] computes: 1 below 2, and
    the sum of the two values before it from 2 on. *)
Fixpoint fib_pair (n : nat) : Z * Z :=
  match n with
  | O => (1, 1)
  | S k => let (a, b) := fib_pair k in (b, a + b)
  end.

Definition fib_value (n : Z) : Z := (fib_pair (Z.to_nat n)).1.

(** The name [fib] is bound to the closure [w] that [memoize] made around
    the function object [fd] of [def fib], with the dictionary
    [results]. *)
Definition fib_bound (st : state) (w fd : nat) (results : dict) : Prop :=
  globals st !! "fib" = Some (VFun w) /\
  heap st !! w = Some (LookupF (VFun fd) results) /\
  heap st !! fd = Some (Def ["n"] fib_code).

(** The state [st] with the dictionary of the closure [w] around [f]
    replaced by [results]. *)
Definition with_results (st : state) (w : nat) (f : value) (results : dict)
    : state :=
  State (<[w := LookupF f results]> (heap st)) (globals st).

(** A dictionary as calls of the memoized [fib] leave it: every key is
    one integer, its value is the value of [fib] there, and with an
    entry for [j >= 2] come the entries for [j - 1] and [j - 2]. *)
Definition fib_cache (results : dict) : Prop :=
  (forall k v, results !! k = Some v ->
     exists j : Z, k = [VInt j] /\ v = VInt (fib_value j)) /\
  (forall j : Z, 2 <= j -> is_Some (results !! [VInt j]) ->
     is_Some (results !! [VInt (j - 1)]) /\
     is_Some (results !! [VInt (j - 2)])).

(** The dictionary with the values of [fib] at 0, 1, ..., [z]. *)
Definition fib_table (z : Z) : dict :=
  list_to_map ((fun j => ([VInt j], VInt (fib_value j))) <$> seqZ 0 (z + 1)).

(** The function object of [def fib] is called under the name [fib]: the
    module before [fib = memoize(fib)]. *)
Definition fib_unmemoized (st : state) (fd : nat) : Prop :=
  globals st !! "fib" = Some (VFun fd) /\
  heap st !! fd = Some (Def ["n"] fib_code).

(** ** The memoized [collatz]

    [[
    @memoize
    def collatz(n):
        if n == 1:
            return 0
        elif n % 2 == 0:
            return 1 + collatz(n // 2)
        else:
            return 1 + collatz(3 * n + 1)
    ]]
    On integers [%] and [//] are the remainder and the quotient of the
    division that rounds down. *)
Definition collatz_code (vs : list value) : body :=
  match vs with
  | [VInt n] =>
      if n =? 1 then Return (VInt 0)
      else if n mod 2 =? 0 then
        LoadGlobal "collatz" (fun c =>
        Call c [VInt (n / 2)] [] (fun r =>
        match py_add (VInt 1) r with
        | Some s => Return s
        | None => Raise TypeError_operand
        end))
      else
        LoadGlobal "collatz" (fun c =>
        Call c [VInt (3 * n + 1)] [] (fun r =>
        match py_add (VInt 1) r with
        | Some s => Return s
        | None => Raise TypeError_operand
        end))
  | _ => Raise TypeError_operand
  end.

(** The name [collatz] is bound to the closure [w] that [memoize] made
    around the function object [cd] of [def collatz]. *)
Definition collatz_bound (st : state) (w cd : nat) (results : dict) : Prop :=
  globals st !! "collatz" = Some (VFun w) /\
  heap st !! w = Some (LookupF (VFun cd) results) /\
  heap st !! cd = Some (Def ["n"] collatz_code).

(** [reaches_one z s]: the Collatz sequence from [z] reaches 1 for the
    first time after [s] steps. *)
Inductive reaches_one : Z -> nat -> Prop :=
| reaches_one_now : reaches_one 1 0
| reaches_one_even (z : Z) (s : nat) :
    z <> 1 -> z mod 2 = 0 -> reaches_one (z / 2) s -> reaches_one z (S s)
| reaches_one_odd (z : Z) (s : nat) :
    z <> 1 -> z mod 2 <> 0 -> reaches_one (3 * z + 1) s ->
    reaches_one z (S s).

(** A dictionary as calls of the memoized [collatz] leave it: every key
    is one integer, its value the number of steps from there to 1. *)
Definition collatz_cache (results : dict) : Prop :=
  forall k v, results !! k = Some v ->
    exists (z : Z) (s : nat),
      k = [VInt z] /\ v = VInt (Z.of_nat s) /\ reaches_one z s.

(** The module after [memoize = memoize(memoize)], with [def collatz]
    and its decorator [@memoize] run. *)
Definition collatz_defined : state :=
  State (heap self_memoized ++ [Def ["n"] collatz_code])
        (<["collatz" := VFun (made 1)]> (globals self_memoized)).

Definition collatz_memoized : state :=
  state_after (rebind 3 "collatz" "memoize" "collatz" collatz_defined) module.

(** ** The memoized Q sequence

    [[
    @memoize
    def hof_q(n):
        if n < 3:
            return 1
        else:
            return hof_q(n - hof_q(n - 1)) + hof_q(n - hof_q(n - 2))
    ]]
    In each operand of [+] the name of the outer call is looked up
    before its argument is computed. *)

(** [a - b], on integers; on the other values of the model it is a
    [TypeError]. *)
Definition py_sub (a b : value) : option value :=
  match a, b with
  | VInt x, VInt y => Some (VInt (x - y))
  | _, _ => None
  end.

Definition hof_q_code (vs : list value) : body :=
  match vs with
  | [VInt n] =>
      if n <? 3 then Return (VInt 1)
      else
        LoadGlobal "hof_q" (fun outer1 =>
        LoadGlobal "hof_q" (fun inner1 =>
        Call inner1 [VInt (n - 1)] [] (fun a =>
        match py_sub (VInt n) a with
        | None => Raise TypeError_operand
        | Some i =>
            Call outer1 [i] [] (fun x =>
            LoadGlobal "hof_q" (fun outer2 =>
            LoadGlobal "hof_q" (fun inner2 =>
            Call inner2 [VInt (n - 2)] [] (fun b =>
            match py_sub (VInt n) b with
            | None => Raise TypeError_operand
            | Some j =>
                Call outer2 [j] [] (fun y =>
                match py_add x y with
                | Some r => Return r
                | None => Raise TypeError_operand
                end)
            end))))
        end)))
  | _ => Raise TypeError_operand
  end.

(** The module with [def hof_q], and with its decorator [@memoize] run
    (the decorator stands before [memoize = memoize(memoize)]). *)
Definition hof_q_defined : state :=
  State (module_heap ++ [Def ["n"] hof_q_code])
        (<["hof_q" := VFun (made 0)]> module_globals).

Definition hof_q_memoized : state :=
  state_after (rebind 2 "hof_q" "memoize" "hof_q" hof_q_defined) module.

(** The table [Q] as the module creates it. *)
Definition Q_module : list Z := [0; 1; 1].

(** [hof_q(n)] and [hof_qt(n)], each from the state the module creates,
    return the same integer. *)
Definition hof_agree (fuel : nat) (n : Z) : bool :=
  match call_name fuel "hof_q" [VInt n] [] hof_q_memoized,
        (hof_qt n Q_module).1 with
  | Ok (VInt a) _, Some b => a =? b
  | _, _ => false
  end.

(** ** Negated predicates

    [[
    def negate(f):
        def negated_f( *args, **kwargs):
            return not f( *args, **kwargs)
        return negated_f

    def is_odd(x):
        return x % 2 != 0

    is_even = negate(is_odd)
    is_positive = negate(lambda x: x <= 0)
    ]]
    for predicates, that is for functions that return [True] or [False];
    the first [is_positive] of the module is [def is_positive(n): return
    n > 0]. *)
Definition negate {A : Type} (f : A -> bool) : A -> bool :=
  fun a => negb (f a).

Definition is_odd (x : Z) : bool := negb (x mod 2 =? 0).

Definition is_even : Z -> bool := negate is_odd.

Definition is_positive (n : Z) : bool := 0 <? n.

Definition is_positive_negated : Z -> bool := negate (fun x => x <=? 0).

(** * Properties of the cycle detector *)

Module PeriodicFacts.
Import Periodic.

Section Detector.
Context {T : Type}.
Variable eqb : T -> T -> bool.
Variable f : T -> T.

Lemma at_round_0 x g : at_round f x g 0 = start f x g.
Proof. unfold at_round, start. simpl. f_equal. lia. Qed.

Lemma round_at_round x g k :
  round f (at_round f x g k) = at_round f x g (S k).
Proof.
  unfold round, at_round. cbn [tortoise hare giveup].
  rewrite Nat.add_succ_r. simpl. f_equal. lia.
Qed.

(** [Z.to_nat giveup] unrollings are enough: the state they end in fails
    the loop condition. *)
Lemma while_exits n c :
  giveup c <= Z.of_nat n -> continues eqb (while eqb f n c) = false.
Proof.
  revert c. induction n as [ | n IH ]; intros c Hg; simpl.
  - unfold continues. replace (0 <? giveup c) with false.
    + apply andb_false_r.
    + symmetry. apply Z.ltb_ge. lia.
  - destruct (continues eqb c) eqn:E; [ | exact E ].
    apply IH. simpl. lia.
Qed.

(** The loop, followed round by round from round [j]. *)
Lemma while_trace n x g j :
  exists k : nat,
    (j <= k <= j + n)%nat /\
    while eqb f n (at_round f x g j) = at_round f x g k /\
    (forall i : nat, (j <= i < k)%nat ->
       continues eqb (at_round f x g i) = true) /\
    (k = (j + n)%nat \/ continues eqb (at_round f x g k) = false).
Proof.
  revert j. induction n as [ | n IH ]; intros j; simpl.
  - exists j. split; [ lia | ]. split; [ reflexivity | ].
    split; [ intros i Hi; lia | left; lia ].
  - destruct (continues eqb (at_round f x g j)) eqn:E.
    + rewrite round_at_round.
      destruct (IH (S j)) as (k & Hk & Hw & Hbefore & Hstop).
      exists k. split; [ lia | ]. split; [ exact Hw | ]. split.
      * intros i Hi. destruct (decide (i = j)) as [-> | Hne]; [ exact E | ].
        apply Hbefore. lia.
      * destruct Hstop as [-> | Hstop]; [ left; lia | right; exact Hstop ].
    + exists j. split; [ lia | ]. split; [ reflexivity | ].
      split; [ intros i Hi; lia | right; exact E ].
Qed.
(** The loop of [is_eventually_periodic] is left at its exit. *)
Lemma final_exits x g : continues eqb (final eqb f x g) = false.
Proof. apply while_exits. unfold start. simpl. lia. Qed.
End Detector.

(** The sequence of [x + 1] never repeats. *)
Lemma iter_succ k x : iter (fun y => y + 1) k x = x + Z.of_nat k.
Proof. induction k as [ | k IH ]; simpl; [ lia | rewrite IH; lia ]. Qed.

End PeriodicFacts.

(** * Claims about the cycle detector *)

(** C4: the three concrete runs of the specification.  With
    [f(x) = (x * x + 1) mod 255], seed [2] and the default bound the
    detector returns [True], after 5 of the 1000 rounds; with
    [f(x) = x + 1], any seed and the bound 1000 it returns [False]; with
    the constant function [f(x) = 1] and seed [5] it returns [True], and
    the loop runs exactly one round. *)
Theorem C4_concrete_runs :
  Periodic.is_eventually_periodic Z.eqb (fun x => (x * x + 1) mod 255) 2
    Periodic.giveup_default = true /\
  Periodic.rounds Z.eqb (fun x => (x * x + 1) mod 255) 2
    Periodic.giveup_default = 5 /\
  (forall x0 : Z,
     Periodic.is_eventually_periodic Z.eqb (fun x => x + 1) x0 1000 = false) /\
  Periodic.is_eventually_periodic Z.eqb (fun _ => 1) 5
    Periodic.giveup_default = true /\
  Periodic.rounds Z.eqb (fun _ => 1) 5 Periodic.giveup_default = 1.
Proof.
  split; [ vm_compute; reflexivity | ].
  split; [ vm_compute; reflexivity | ].
  split; [ | split; vm_compute; reflexivity ].
  intros x0. unfold Periodic.is_eventually_periodic, Periodic.final.
  destruct (PeriodicFacts.while_trace Z.eqb (fun x => x + 1)
              (Z.to_nat 1000) x0 1000 0) as (k & _ & Hw & _ & _).
  rewrite <- PeriodicFacts.at_round_0, Hw.
  unfold Periodic.at_round. cbn [Periodic.tortoise Periodic.hare].
  rewrite !PeriodicFacts.iter_succ. apply Z.eqb_neq. lia.
Qed.

(** C5, as the detector is written: the tortoise starts at the seed itself
    and the hare one application ahead.  From there the loop runs to the
    first round [k] at which the cursors [f^k(x0)] and [f^(2k+1)(x0)] are
    equal and returns [True] there; when no round up to [max_steps] has
    equal cursors it stops after [max_steps] rounds and returns [False]. *)
Theorem C5_tortoise_starts_at_seed {T : Type} (eqb : T -> T -> bool)
    (f : T -> T) (x0 : T) (max_steps : nat) :
  Periodic.start f x0 (Z.of_nat max_steps)
    = Periodic.Cursors x0 (f x0) (Z.of_nat max_steps) /\
  exists k : nat,
    (k <= max_steps)%nat /\
    Periodic.final eqb f x0 (Z.of_nat max_steps)
      = Periodic.at_round f x0 (Z.of_nat max_steps) k /\
    (forall i : nat, (i < k)%nat ->
       eqb (Periodic.iter f i x0) (Periodic.iter f (S (i + i)) x0) = false) /\
    Periodic.is_eventually_periodic eqb f x0 (Z.of_nat max_steps)
      = eqb (Periodic.iter f k x0) (Periodic.iter f (S (k + k)) x0) /\
    (Periodic.is_eventually_periodic eqb f x0 (Z.of_nat max_steps) = false ->
     k = max_steps).
Proof.
  split; [ reflexivity | ].
  unfold Periodic.is_eventually_periodic, Periodic.final.
  rewrite Nat2Z.id, <- PeriodicFacts.at_round_0.
  destruct (PeriodicFacts.while_trace eqb f max_steps x0
              (Z.of_nat max_steps) 0) as (k & Hk & Hw & Hbefore & Hstop).
  exists k. rewrite Hw. split; [ lia | ]. split; [ reflexivity | ]. split.
  - intros i Hi. specialize (Hbefore i ltac:(lia)).
    unfold Periodic.continues in Hbefore.
    apply andb_true_iff in Hbefore as [Hne _].
    now apply negb_true_iff in Hne.
  - split; [ reflexivity | ].
    cbn [Periodic.at_round Periodic.tortoise Periodic.hare].
    intros Hfalse. destruct Hstop as [-> | Hstop]; [ reflexivity | ].
    unfold Periodic.continues in Hstop.
    cbn [Periodic.at_round Periodic.tortoise Periodic.hare Periodic.giveup]
      in Hstop.
    rewrite Hfalse in Hstop. simpl in Hstop.
    apply Z.ltb_ge in Hstop. lia.
Qed.

(** C5 does not hold as stated: the source starts the tortoise at the seed
    [0], not at [f(0) = 1], and the hare at [f(0) = 1], not at
    [f(f(0)) = 2]; with two rounds the source answers [False] where the
    detector that starts as the claim says answers [True]. *)
Lemma C5_start_differs :
  Periodic.start rho 0 2 = Periodic.Cursors 0 1 2 /\
  Periodic.canonical_start rho 0 2 = Periodic.Cursors 1 2 2 /\
  Periodic.is_eventually_periodic Z.eqb rho 0 2 = false /\
  Periodic.canonical_detect Z.eqb rho 0 2 = true.
Proof. repeat split. Qed.

(** * Properties of calls *)

Section Fuel.

(** More fuel does not change the outcome of a call that ended. *)
Lemma exec_mono
    (c1 c2 : value -> list value -> kwargs -> state -> outcome value) :
  (forall fn args kw st o,
     c1 fn args kw st = o -> o <> OutOfFuel -> c2 fn args kw st = o) ->
  forall b st o, exec c1 b st = o -> o <> OutOfFuel -> exec c2 b st = o.
Proof.
  intros Hc b.
  induction b as [ v | e | name k IH | fn args kw k IH ];
    simpl; intros st o E Ho.
  - exact E.
  - exact E.
  - destruct (globals st !! name) as [ v | ]; [ | exact E ].
    now apply IH.
  - destruct (c1 fn args kw st) as [ v st' | e st' | ] eqn:E1.
    + rewrite (Hc _ _ _ _ _ E1) by discriminate. now apply IH.
    + rewrite (Hc _ _ _ _ _ E1) by discriminate. exact E.
    + congruence.
Qed.

Lemma call_mono (n m : nat) fn args kw st o :
  (n <= m)%nat -> call n fn args kw st = o -> o <> OutOfFuel ->
  call m fn args kw st = o.
Proof.
  revert m fn args kw st o.
  induction n as [ | n IH ]; intros m fn args kw st o Hnm E Ho.
  - simpl in E. congruence.
  - destruct m as [ | m ]; [ lia | ].
    assert (Hn : (n <= m)%nat) by lia.
    simpl in E |- *.
    destruct fn as [ | | | | | id ]; try exact E.
    destruct (heap st !! id) as [ [ params code | | f results | | f count ] | ];
      try exact E.
    + destruct (bind_params params args kw) as [ vs | ]; [ | exact E ].
      eapply exec_mono; [ | exact E | exact Ho ].
      intros fn' args' kw' st' o' E' Ho'. now apply (IH m).
    + destruct kw; [ | exact E ].
      destruct (forallb hashable args); [ | exact E ].
      destruct (default VNone (results !! args)); try exact E.
      destruct (call n f args [] st) as [ v st' | e st' | ] eqn:E1.
      * now rewrite (IH m _ _ _ _ _ Hn E1).
      * now rewrite (IH m _ _ _ _ _ Hn E1).
      * congruence.
    + now apply IH.
Qed.

Lemma call_name_mono (n m : nat) name args kw st o :
  (n <= m)%nat -> call_name n name args kw st = o -> o <> OutOfFuel ->
  call_name m name args kw st = o.
Proof.
  unfold call_name. intros Hnm E Ho.
  destruct (globals st !! name) as [ fn | ]; [ | exact E ].
  now apply (call_mono n m).
Qed.

End Fuel.

(** A step that returns [a] is [Ok a] with the state it ended in. *)
Lemma returns_Ok {A : Type} (o : outcome A) (a : A) (dflt : state) :
  returns o a -> o = Ok a (state_after o dflt).
Proof.
  destruct o as [ a' st' | e st' | ]; simpl; intros H;
    [ now subst a' | contradiction | contradiction ].
Qed.

(** The three rebinding statements run to their end with two units of
    fuel, and leave the states named above. *)
Lemma self_memoized_run :
  rebind 2 "memoize" "memoize" "memoize" module = Ok tt self_memoized.
Proof. reflexivity. Qed.

Lemma fib_memoized_run :
  rebind 2 "fib" "memoize" "fib" module = Ok tt fib_memoized.
Proof. reflexivity. Qed.

Lemma kf_memoized_run :
  rebind 2 "kf" "memoize" "kf" module = Ok tt kf_memoized.
Proof. reflexivity. Qed.

(** [reset_count] sets the count to zero, whatever it was, and leaves the
    captured function as it is. *)
Lemma get_count_reset st id f count :
  heap st !! id = Some (Cf f count) ->
  get_count (reset_count id st) id = Some 0 /\
  heap (reset_count id st) !! id = Some (Cf f 0).
Proof.
  intros H. unfold get_count, reset_count. rewrite H. cbn [heap].
  rewrite list_lookup_insert_eq by (eapply lookup_lt_Some; exact H).
  split; reflexivity.
Qed.

(** ** One call of each kind of function object *)

Section CallEquations.
Variable n : nat.
Variable st : state.

Lemma call_memoize m f :
  heap st !! m = Some Memoize ->
  call (S n) (VFun m) [f] [] st
    = Ok (VFun (length (heap st)))
         (State (heap st ++ [LookupF f ∅]) (globals st)).
Proof. intros H. simpl. now rewrite H. Qed.

Lemma call_counter c f :
  heap st !! c = Some Counter ->
  call (S n) (VFun c) [f] [] st
    = Ok (VFun (length (heap st)))
         (State (heap st ++ [Cf f 0]) (globals st)).
Proof. intros H. simpl. now rewrite H. Qed.

Lemma call_cf id f count args kw :
  heap st !! id = Some (Cf f count) ->
  call (S n) (VFun id) args kw st
    = call n f args kw
        (State (<[id := Cf f (count + 1)]> (heap st)) (globals st)).
Proof. intros H. simpl. unfold increment. now rewrite H. Qed.

(** A cache hit: the stored value is returned, nothing is called and the
    state is as before. *)
Lemma call_lookup_f_hit id f results args v :
  heap st !! id = Some (LookupF f results) ->
  forallb hashable args = true ->
  results !! args = Some v -> v <> VNone ->
  call (S n) (VFun id) args [] st = Ok v st.
Proof.
  intros H Hh Hv Hne. simpl. rewrite H, Hh, Hv. simpl.
  destruct v; congruence.
Qed.

(** No entry, or an entry that holds [None]: [f] is called and its result
    is stored. *)
Lemma call_lookup_f_miss id f results args :
  heap st !! id = Some (LookupF f results) ->
  forallb hashable args = true ->
  default VNone (results !! args) = VNone ->
  call (S n) (VFun id) args [] st
    = match call n f args [] st with
      | Ok res st' => Ok res (store_result id args res st')
      | Exn e st' => Exn e st'
      | OutOfFuel => OutOfFuel
      end.
Proof. intros H Hh Hv. simpl. now rewrite H, Hh, Hv. Qed.

(** [lookup_f] takes positional arguments only. *)
Lemma call_lookup_f_keyword id f results args k kw :
  heap st !! id = Some (LookupF f results) ->
  call (S n) (VFun id) args (k :: kw) st = Exn TypeError_signature st.
Proof. intros H. simpl. now rewrite H. Qed.

Lemma call_lookup_f_unhashable id f results args :
  heap st !! id = Some (LookupF f results) ->
  forallb hashable args = false ->
  call (S n) (VFun id) args [] st = Exn TypeError_unhashable st.
Proof. intros H Hh. simpl. now rewrite H, Hh. Qed.

End CallEquations.

(** * Claims about [memoize] and [counter] *)

(** C7: a call of a memoized function whose argument tuple is not hashable
    raises the [TypeError] of the dictionary lookup (the specification's
    [UnhashableArgumentError]).  One unit of fuel is enough, so no call of
    the wrapped [f] takes place, and the state in which the exception
    leaves is the state of the call: [results] has the entries it had. *)
Theorem C7_unhashable_argument (n : nat) (st : state) (id : nat)
    (f : value) (results : dict) (args : list value) :
  heap st !! id = Some (LookupF f results) ->
  forallb hashable args = false ->
  call (S n) (VFun id) args [] st = Exn TypeError_unhashable st /\
  results_of (state_after (call (S n) (VFun id) args [] st) st) id
    = Some results.
Proof.
  intros H Hh. rewrite (call_lookup_f_unhashable n st id f results args H Hh).
  split; [ reflexivity | ]. simpl. unfold results_of. now rewrite H.
Qed.

Lemma C7_unhashable_argument_witness :
  call 1 (VFun (made 0)) [VList [VInt 1; VInt 2]] [] kf_memoized
    = Exn TypeError_unhashable kf_memoized /\
  results_of
    (state_after
       (call 1 (VFun (made 0)) [VList [VInt 1; VInt 2]] [] kf_memoized)
       kf_memoized) (made 0) = Some ∅.
Proof.
  apply (C7_unhashable_argument 0 kf_memoized (made 0) (VFun kf_def) ∅
           [VList [VInt 1; VInt 2]]); reflexivity.
Defined.

(** C9 fails on the source: [kf(x=7)] is [7], but the same call of
    [memoize(kf)] raises a [TypeError], since [lookup_f] is declared with
    positional parameters only. *)
Theorem C9_keyword_call_rejected :
  call 1 (VFun kf_def) [] [("x", VInt 7)] module = Ok (VInt 7) module /\
  exists (g : nat) (st : state),
    call_name 1 "memoize" [VFun kf_def] [] module = Ok (VFun g) st /\
    forall n : nat,
      call (S n) (VFun g) [] [("x", VInt 7)] st
        = Exn TypeError_signature st.
Proof.
  split; [ reflexivity | ].
  eexists _, _. split; [ reflexivity | ].
  intros n. eapply call_lookup_f_keyword. reflexivity.
Qed.

Lemma self_memoized_self_applied :
  self_applied self_memoized (made 0) memoize_def ∅.
Proof. repeat split. Qed.

(** The state in which the self-applied operator leaves after it made a
    wrapper for [g] is again one in which [memoize] is self-applied. *)
Lemma self_applied_store st w m results (g : value) :
  self_applied st w m results ->
  self_applied
    (State (<[w := LookupF (VFun m)
                      (<[[g] := VFun (length (heap st))]> results)]>
              (heap st ++ [LookupF g ∅]))
           (globals st))
    w m (<[[g] := VFun (length (heap st))]> results).
Proof.
  intros (Hg & Hw & Hm). repeat split; cbn [heap globals].
  - exact Hg.
  - apply list_lookup_insert_eq. rewrite length_app.
    apply lookup_lt_Some in Hw. lia.
  - destruct (decide (w = m)) as [-> | Hne]; [ congruence | ].
    rewrite list_lookup_insert_ne by exact Hne.
    rewrite lookup_app_l by (eapply lookup_lt_Some; exact Hm).
    exact Hm.
Qed.

(** [memoize(g)] through the self-applied operator. *)
Lemma self_applied_memoize (n : nat) st w m results (g : value) :
  self_applied st w m results ->
  hashable g = true ->
  call_name (S (S n)) "memoize" [g] [] st
    = match default VNone (results !! [g]) with
      | VNone =>
          Ok (VFun (length (heap st)))
             (State (<[w := LookupF (VFun m)
                               (<[[g] := VFun (length (heap st))]> results)]>
                       (heap st ++ [LookupF g ∅]))
                    (globals st))
      | v => Ok v st
      end.
Proof.
  intros (Hg & Hw & Hm) Hh. unfold call_name. rewrite Hg.
  assert (Hargs : forallb hashable [g] = true) by (simpl; now rewrite Hh).
  destruct (default VNone (results !! [g])) eqn:E.
  1: { rewrite (call_lookup_f_miss _ _ _ _ _ _ Hw Hargs E).
       rewrite (call_memoize _ _ _ _ Hm).
       unfold store_result. cbn [heap globals].
       rewrite lookup_app_l by (eapply lookup_lt_Some; exact Hw).
       now rewrite Hw. }
  all: destruct (results !! [g]) as [ v | ] eqn:Ev; simpl in E;
    [ subst v | discriminate ];
    now rewrite (call_lookup_f_hit _ _ _ _ _ _ _ Hw Hargs Ev).
Qed.

(** C3: once [memoize = memoize(memoize)] has run, memoizing the same
    function object [g] twice returns the same object both times,
    [f1 is f2]: a function object [f1] that is a closure [lookup_f]
    around [g].  The second call changes nothing, and the state it leaves
    is again one in which [memoize] is self-applied and caches wrappers
    of their targets. *)
Theorem C3_same_target_same_wrapper (st : state) (w m : nat)
    (results : dict) (g : nat) :
  self_applied st w m results ->
  cached_wrappers st results ->
  exists (f1 : nat) (st1 : state) (r results1 : dict),
    (forall n : nat,
       call_name (S (S n)) "memoize" [VFun g] [] st = Ok (VFun f1) st1 /\
       call_name (S (S n)) "memoize" [VFun g] [] st1 = Ok (VFun f1) st1) /\
    heap st1 !! f1 = Some (LookupF (VFun g) r) /\
    self_applied st1 w m results1 /\
    cached_wrappers st1 results1.
Proof.
  intros H Hcw. pose proof H as (Hg & Hw & Hm).
  destruct (results !! [VFun g]) as [ v | ] eqn:E.
  - (* the wrapper of g is in the dictionary of the operator *)
    destruct (Hcw _ _ E) as (b & r & -> & Hb).
    exists b, st, r, results. split; [ | auto ].
    intros n.
    rewrite (self_applied_memoize n _ _ _ _ (VFun g) H eq_refl), E.
    split; reflexivity.
  - (* the operator makes the wrapper and stores it *)
    pose proof (self_applied_store st w m results (VFun g) H) as H1.
    assert (Hnew : forall o,
              (<[w := o]> (heap st ++ [LookupF (VFun g) ∅]))
                !! length (heap st) = Some (LookupF (VFun g) ∅)).
    { intros o. apply lookup_lt_Some in Hw.
      rewrite list_lookup_insert_ne by lia. now apply list_lookup_middle. }
    eexists (length (heap st)), _, ∅, _. split; [ | split; [ | split ] ].
    + intros n.
      rewrite (self_applied_memoize n _ _ _ _ (VFun g) H eq_refl), E.
      split; [ reflexivity | ].
      rewrite (self_applied_memoize n _ _ _ _ (VFun g) H1 eq_refl).
      now rewrite lookup_insert_eq.
    + cbn [heap]. apply Hnew.
    + exact H1.
    + intros a v. cbn [heap].
      destruct (decide (a = g)) as [-> | Hne].
      * rewrite lookup_insert_eq. intros [= <-].
        exists (length (heap st)), ∅. split; [ reflexivity | apply Hnew ].
      * rewrite lookup_insert_ne by congruence. intros Ha.
        destruct (Hcw _ _ Ha) as (b & r & -> & Hb).
        destruct (decide (b = w)) as [-> | Hbw].
        -- rewrite Hw in Hb. injection Hb as -> ->.
           eexists w, _. split; [ reflexivity | ].
           apply list_lookup_insert_eq. rewrite length_app.
           apply lookup_lt_Some in Hw. lia.
        -- exists b, r. split; [ reflexivity | ].
           rewrite list_lookup_insert_ne by congruence.
           rewrite lookup_app_l by (eapply lookup_lt_Some; exact Hb).
           exact Hb.
Qed.

Lemma C3_same_target_same_wrapper_witness :
  exists (f1 : nat) (st1 : state) (r results1 : dict),
    (forall n : nat,
       call_name (S (S n)) "memoize" [VFun kf_def] [] self_memoized
         = Ok (VFun f1) st1 /\
       call_name (S (S n)) "memoize" [VFun kf_def] [] st1
         = Ok (VFun f1) st1) /\
    heap st1 !! f1 = Some (LookupF (VFun kf_def) r) /\
    self_applied st1 (made 0) memoize_def results1 /\
    cached_wrappers st1 results1.
Proof.
  apply (C3_same_target_same_wrapper self_memoized (made 0) memoize_def ∅
           kf_def).
  - exact self_memoized_self_applied.
  - intros a v E. rewrite lookup_empty in E. discriminate.
Defined.

(** C2, as the source behaves: [memoize] does not recognise its own
    products.  Once [memoize = memoize(memoize)] has run, for a function
    object [f] of the module both [memoize(f)] and [memoize(memoize(f))]
    return, and the second is a different object from the first. *)
Theorem C2_rewrap_is_another_object (st : state) (w m : nat)
    (results : dict) (f : nat) :
  self_applied st w m results ->
  newer_wrappers st results ->
  (f < length (heap st))%nat ->
  exists (g1 g2 : value) (st1 st2 : state),
    g2 <> g1 /\
    forall n : nat,
      call_name (S (S n)) "memoize" [VFun f] [] st = Ok g1 st1 /\
      call_name (S (S n)) "memoize" [g1] [] st1 = Ok g2 st2.
Proof.
  intros H Hnew Hf.
  destruct (results !! [VFun f]) as [ v | ] eqn:Ef.
  - destruct (Hnew _ _ Ef) as (b & -> & Hb).
    destruct (results !! [VFun b]) as [ v' | ] eqn:Eb.
    + destruct (Hnew _ _ Eb) as (c & -> & Hc).
      exists (VFun b), (VFun c), st, st. split.
      * intros [= E]. lia.
      * intros n.
        rewrite (self_applied_memoize n _ _ _ _ (VFun f) H eq_refl), Ef.
        rewrite (self_applied_memoize n _ _ _ _ (VFun b) H eq_refl), Eb.
        split; reflexivity.
    + eexists (VFun b), (VFun (length (heap st))), st, _. split.
      * intros [= E]. lia.
      * intros n.
        rewrite (self_applied_memoize n _ _ _ _ (VFun f) H eq_refl), Ef.
        rewrite (self_applied_memoize n _ _ _ _ (VFun b) H eq_refl), Eb.
        split; reflexivity.
  - pose proof (self_applied_store st w m results (VFun f) H) as H1.
    assert (EL : results !! [VFun (length (heap st))] = None).
    { destruct (results !! [VFun (length (heap st))]) as [ v | ] eqn:E;
        [ | reflexivity ].
      destruct (Hnew _ _ E) as (b & _ & Hb). lia. }
    eexists (VFun (length (heap st))), (VFun (S (length (heap st)))), _, _.
    split.
    + intros [= E]. lia.
    + intros n.
      rewrite (self_applied_memoize n _ _ _ _ (VFun f) H eq_refl), Ef.
      split; [ reflexivity | ].
      rewrite (self_applied_memoize n _ _ _ _ (VFun (length (heap st))) H1
                 eq_refl).
      rewrite lookup_insert_ne by (intros [= E]; lia).
      rewrite EL. cbn [default heap globals].
      rewrite length_insert, length_app. cbn [length].
      replace (length (heap st) + 1)%nat with (S (length (heap st))) by lia.
      reflexivity.
Qed.

Lemma C2_rewrap_is_another_object_witness :
  exists (g1 g2 : value) (st1 st2 : state),
    g2 <> g1 /\
    forall n : nat,
      call_name (S (S n)) "memoize" [VFun kf_def] [] self_memoized = Ok g1 st1 /\
      call_name (S (S n)) "memoize" [g1] [] st1 = Ok g2 st2.
Proof.
  apply (C2_rewrap_is_another_object self_memoized (made 0) memoize_def ∅
           kf_def).
  - exact self_memoized_self_applied.
  - intros a v E. rewrite lookup_empty in E. discriminate.
  - vm_compute. lia.
Defined.

(** C2 does not hold as stated: after [memoize = memoize(memoize)],
    [memoize(kf)] is the second object made after the module's own and
    [memoize(memoize(kf))] is the third, a [lookup_f] whose captured [f]
    is the second. *)
Lemma C2_rewrap_not_identical :
  exists st1 st2 : state,
    call_name 2 "memoize" [VFun kf_def] [] self_memoized = Ok (VFun (made 1)) st1 /\
    call_name 2 "memoize" [VFun (made 1)] [] st1 = Ok (VFun (made 2)) st2 /\
    heap st2 !! made 2 = Some (LookupF (VFun (made 1)) ∅) /\
    VFun (made 2) <> VFun (made 1).
Proof.
  eexists _, _. split; [ reflexivity | ]. split; [ reflexivity | ].
  split; [ reflexivity | discriminate ].
Qed.

(** ** A heap that ends in the two closures of a composition *)

Section TwoClosures.
Variable h : list fobj.
Variables A B : fobj.

Lemma two_lookup_old i o : h !! i = Some o -> (h ++ [A; B]) !! i = Some o.
Proof.
  intros H. rewrite lookup_app_l by (eapply lookup_lt_Some; exact H). exact H.
Qed.

Lemma two_lookup_fst : (h ++ [A; B]) !! length h = Some A.
Proof. now apply list_lookup_middle. Qed.

Lemma two_lookup_snd : (h ++ [A; B]) !! S (length h) = Some B.
Proof.
  rewrite lookup_app_r by lia.
  now replace (S (length h) - length h)%nat with 1%nat by lia.
Qed.

Lemma two_insert_fst A' : <[length h := A']> (h ++ [A; B]) = h ++ [A'; B].
Proof.
  rewrite insert_app_r_alt by lia. now rewrite Nat.sub_diag.
Qed.

Lemma two_insert_snd B' : <[S (length h) := B']> (h ++ [A; B]) = h ++ [A; B'].
Proof.
  rewrite insert_app_r_alt by lia.
  now replace (S (length h) - length h)%nat with 1%nat by lia.
Qed.

End TwoClosures.

(** A call of a [def] whose body returns at once. *)
Lemma call_def_return n st id params code args kw vs v :
  heap st !! id = Some (Def params code) ->
  bind_params params args kw = Some vs ->
  code vs = Return v ->
  call (S n) (VFun id) args kw st = Ok v st.
Proof. intros H Hb Hc. simpl. now rewrite H, Hb, Hc. Qed.

Section Compositions.
Variable n : nat.
Variable h : list fobj.
Variable G : gmap string value.
Variables (fid : nat) (params : list string) (code : list value -> body).
Variables (args vs : list value) (v : value).
Hypothesis Hf : h !! fid = Some (Def params code).
Hypothesis Hbind : bind_params params args [] = Some vs.
Hypothesis Hcode : code vs = Return v.
Hypothesis Hhash : forallb hashable args = true.

(** One call of [g = memoize(c)] where [c = counter(f)]: the closure [cf]
    sits at [length h] and the closure [lookup_f] above it. *)
Lemma call_memoize_counter (count : Z) (results : dict) :
  call (S (S (S n))) (VFun (S (length h))) args []
       (State (h ++ [Cf (VFun fid) count;
                     LookupF (VFun (length h)) results]) G)
    = match default VNone (results !! args) with
      | VNone =>
          Ok v (State (h ++ [Cf (VFun fid) (count + 1);
                             LookupF (VFun (length h))
                                     (<[args := v]> results)]) G)
      | res =>
          Ok res (State (h ++ [Cf (VFun fid) count;
                               LookupF (VFun (length h)) results]) G)
      end.
Proof.
  destruct (default VNone (results !! args)) eqn:E.
  1: { erewrite call_lookup_f_miss;
         [ | apply two_lookup_snd | exact Hhash | exact E ].
       erewrite call_cf; [ | apply two_lookup_fst ].
       cbn [heap globals]. rewrite two_insert_fst.
       erewrite call_def_return;
         [ | apply two_lookup_old; exact Hf | exact Hbind | exact Hcode ].
       unfold store_result. cbn [heap globals].
       now rewrite two_lookup_snd, two_insert_snd. }
  all: destruct (results !! args) as [ r | ] eqn:Er; simpl in E;
    [ subst r | discriminate ];
    erewrite call_lookup_f_hit;
      [ reflexivity | apply two_lookup_snd | exact Hhash | exact Er
      | discriminate ].
Qed.

(** One call of [c = counter(g)] where [g = memoize(f)]: the closure
    [lookup_f] sits at [length h] and the closure [cf] above it. *)
Lemma call_counter_memoize (count : Z) (results : dict) :
  call (S (S (S n))) (VFun (S (length h))) args []
       (State (h ++ [LookupF (VFun fid) results;
                     Cf (VFun (length h)) count]) G)
    = match default VNone (results !! args) with
      | VNone =>
          Ok v (State (h ++ [LookupF (VFun fid) (<[args := v]> results);
                             Cf (VFun (length h)) (count + 1)]) G)
      | res =>
          Ok res (State (h ++ [LookupF (VFun fid) results;
                               Cf (VFun (length h)) (count + 1)]) G)
      end.
Proof.
  erewrite call_cf; [ | apply two_lookup_snd ].
  cbn [heap globals]. rewrite two_insert_snd.
  destruct (default VNone (results !! args)) eqn:E.
  1: { erewrite call_lookup_f_miss;
         [ | apply two_lookup_fst | exact Hhash | exact E ].
       erewrite call_def_return;
         [ | apply two_lookup_old; exact Hf | exact Hbind | exact Hcode ].
       unfold store_result. cbn [heap globals].
       now rewrite two_lookup_fst, two_insert_fst. }
  all: destruct (results !! args) as [ r | ] eqn:Er; simpl in E;
    [ subst r | discriminate ];
    erewrite call_lookup_f_hit;
      [ reflexivity | apply two_lookup_fst | exact Hhash | exact Er
      | discriminate ].
Qed.

End Compositions.

Lemma module_combinators_bound : combinators_bound module.
Proof. exists memoize_def, counter_def. repeat split. Qed.

Section Scenarios.
Variable n : nat.
Variable st : state.
Variables (fid : nat) (params : list string) (code : list value -> body).
Variables (args vs : list value) (v : value).
Hypothesis Hst : combinators_bound st.
Hypothesis Hf : heap st !! fid = Some (Def params code).
Hypothesis Hbind : bind_params params args [] = Some vs.
Hypothesis Hcode : code vs = Return v.
Hypothesis Hhash : forallb hashable args = true.

(** The count of the counted function under the memoizer: one call when
    the result is cached, two when the result is [None]. *)
Lemma memoize_of_counted_run :
  exists st',
    memoize_of_counted (S (S (S n))) (VFun fid) args st
      = Ok (Some v, Some v,
            Some (match v with VNone => 2 | _ => 1 end)) st'.
Proof.
  destruct Hst as (mz & ct & Gm & Hm & Gc & Hc).
  destruct st as [h G]. cbn [heap globals] in *.
  unfold memoize_of_counted, bind, call_name. cbn [heap globals].
  rewrite Gc. erewrite call_counter by exact Hc.
  cbn [heap globals]. rewrite Gm.
  erewrite call_memoize
    by (cbn [heap]; rewrite lookup_app_l
          by (eapply lookup_lt_Some; exact Hm); exact Hm).
  cbn [heap globals]. rewrite length_app, <- app_assoc.
  cbn [length app]. rewrite Nat.add_1_r.
  unfold attempt.
  erewrite (call_memoize_counter n h G fid params code args vs v)
    by eassumption.
  rewrite lookup_empty. cbn [default].
  erewrite (call_memoize_counter n h G fid params code args vs v)
    by eassumption.
  rewrite lookup_insert_eq. cbn [default].
  destruct v as [ | z | s | xs | xs | k ]; eexists;
    cbv beta iota delta [id count_of get_count heap];
    rewrite two_lookup_fst; reflexivity.
Qed.

(** The count of the counter around the memoized function: every call is
    counted. *)
Lemma counted_of_memoize_run :
  exists st',
    counted_of_memoize (S (S (S n))) (VFun fid) args st
      = Ok (Some v, Some v, Some 2) st'.
Proof.
  destruct Hst as (mz & ct & Gm & Hm & Gc & Hc).
  destruct st as [h G]. cbn [heap globals] in *.
  unfold counted_of_memoize, bind, call_name. cbn [heap globals].
  rewrite Gm. erewrite call_memoize by exact Hm.
  cbn [heap globals]. rewrite Gc.
  erewrite call_counter
    by (cbn [heap]; rewrite lookup_app_l
          by (eapply lookup_lt_Some; exact Hc); exact Hc).
  cbn [heap globals]. rewrite length_app, <- app_assoc.
  cbn [length app]. rewrite Nat.add_1_r.
  unfold attempt.
  erewrite (call_counter_memoize n h G fid params code args vs v)
    by eassumption.
  rewrite lookup_empty. cbn [default].
  erewrite (call_counter_memoize n h G fid params code args vs v)
    by eassumption.
  rewrite lookup_insert_eq. cbn [default].
  destruct v as [ | z | s | xs | xs | k ]; eexists;
    cbv beta iota delta [id count_of get_count heap];
    rewrite two_lookup_snd; reflexivity.
Qed.

End Scenarios.

(** C1 fails on the source when the result is [None]: with
    [f = lambda x: None] counted and then memoized, both calls with the
    argument [0] return [f(0)], but the count of [f] is 2 after them: the
    second call invokes [f] again. *)
Theorem C1_None_result_is_recomputed :
  exists st' : state,
    memoize_of_counted 3 (VFun (made 0)) [VInt 0] (module_with returns_none)
      = Ok (Some VNone, Some VNone, Some 2) st'.
Proof.
  eexists. apply (returns_Ok _ _ module). vm_compute. reflexivity.
Qed.

(** C6, for an argument that is hashable and not [None]: with
    [f(x) = x], two calls of [counter(memoize(f))] leave the outer count at
    2, and two calls of [memoize(counter(f))] leave the inner count at 1;
    all four calls return [x]. *)
Theorem C6_order_of_composition (n : nat) (st : state) (kf : nat)
    (x : value) :
  combinators_bound st ->
  heap st !! kf = Some (Def ["x"] kf_code) ->
  hashable x = true ->
  x <> VNone ->
  exists st1 st2 : state,
    counted_of_memoize (S (S (S n))) (VFun kf) [x] st
      = Ok (Some x, Some x, Some 2) st1 /\
    memoize_of_counted (S (S (S n))) (VFun kf) [x] st
      = Ok (Some x, Some x, Some 1) st2.
Proof.
  intros Hst Hkf Hh Hx.
  assert (Hargs : forallb hashable [x] = true) by (simpl; now rewrite Hh).
  destruct (counted_of_memoize_run n st kf ["x"] kf_code [x] [x] x
              Hst Hkf eq_refl eq_refl Hargs) as (st1 & H1).
  destruct (memoize_of_counted_run n st kf ["x"] kf_code [x] [x] x
              Hst Hkf eq_refl eq_refl Hargs) as (st2 & H2).
  exists st1, st2. split; [ exact H1 | ].
  rewrite H2. destruct x; congruence.
Qed.

Lemma C6_order_of_composition_witness :
  exists st1 st2 : state,
    counted_of_memoize 3 (VFun kf_def) [VInt 7] module
      = Ok (Some (VInt 7), Some (VInt 7), Some 2) st1 /\
    memoize_of_counted 3 (VFun kf_def) [VInt 7] module
      = Ok (Some (VInt 7), Some (VInt 7), Some 1) st2.
Proof.
  apply (C6_order_of_composition 0 module kf_def (VInt 7)).
  - exact module_combinators_bound.
  - reflexivity.
  - reflexivity.
  - discriminate.
Defined.

(** C6 does not hold for every argument: with the list [[1]], which is
    not hashable, both calls of [memoize(counter(kf))] raise before [kf]
    is reached and the inner count is 0; with [None] the second call is
    not served from the cache and the inner count is 2. *)
Lemma C6_inner_count_not_one :
  (exists st' : state,
     memoize_of_counted 3 (VFun kf_def) [VList [VInt 1]] module
       = Ok (None, None, Some 0) st') /\
  (exists st' : state,
     memoize_of_counted 3 (VFun kf_def) [VNone] module
       = Ok (Some VNone, Some VNone, Some 2) st').
Proof.
  split; eexists; apply (returns_Ok _ _ module); vm_compute; reflexivity.
Qed.

(** One call of a memoized [def] whose body returns at once. *)
Lemma call_memoized_return n st g fid params code results args vs v :
  heap st !! g = Some (LookupF (VFun fid) results) ->
  heap st !! fid = Some (Def params code) ->
  bind_params params args [] = Some vs ->
  code vs = Return v ->
  forallb hashable args = true ->
  call (S (S n)) (VFun g) args [] st
    = match default VNone (results !! args) with
      | VNone =>
          Ok v (State (<[g := LookupF (VFun fid) (<[args := v]> results)]>
                         (heap st))
                      (globals st))
      | res => Ok res st
      end.
Proof.
  intros Hg Hf Hb Hc Hh.
  destruct (default VNone (results !! args)) eqn:E.
  1: { rewrite (call_lookup_f_miss _ _ _ _ _ _ Hg Hh E).
       rewrite (call_def_return _ _ _ _ _ _ _ _ _ Hf Hb Hc).
       unfold store_result. now rewrite Hg. }
  all: destruct (results !! args) as [ r | ] eqn:Er; simpl in E;
    [ subst r | discriminate ];
    now rewrite (call_lookup_f_hit _ _ _ _ _ _ _ Hg Hh Er).
Qed.


(** C10 does not hold as stated: after one call of
    [memoize(lambda x: None)] with [0], the dictionary [results] has one
    entry, and its value is [None]. *)
Lemma C10_None_is_stored :
  exists st' : state,
    cache_after_call 2 (VFun (made 0)) [VInt 0] (module_with returns_none)
      = Ok (VNone, Some [([VInt 0], VNone)]) st'.
Proof.
  eexists. apply (returns_Ok _ _ module). vm_compute. reflexivity.
Qed.

(** C8: once [fib = memoize(fib)] has run, [fib(10)] is [89], and the
    dictionary of the memoized [fib] then holds 11 entries, the values of
    [fib] at 0, 1, ..., 10. *)
Theorem C8_fib_10 :
  exists (st' : state) (results : dict),
    (forall n : nat,
       call_name (21 + n) "fib" [VInt 10] [] fib_memoized
         = Ok (VInt 89) st') /\
    globals fib_memoized !! "fib" = Some (VFun (made 0)) /\
    results_of st' (made 0) = Some results /\
    size results = 11%nat /\
    map (fun k => results !! [VInt k]) (seqZ 0 11)
      = map (fun r => Some (VInt r)) [1; 1; 2; 3; 5; 8; 13; 21; 34; 55; 89].
Proof.
  pose (o := call_name 21 "fib" [VInt 10] [] fib_memoized).
  assert (Ho : o = Ok (VInt 89) (state_after o module))
    by (apply returns_Ok; vm_compute; reflexivity).
  exists (state_after o module),
         (default ∅ (results_of (state_after o module) (made 0))).
  split; [ | split; [ | split; [ | split ] ] ].
  - intros n. eapply call_name_mono; [ | exact Ho | discriminate ]. lia.
  - vm_compute. reflexivity.
  - assert (Hsome : match results_of (state_after o module) (made 0) with
                     | Some _ => True
                     | None => False
                     end)
      by (vm_compute; exact I).
    destruct (results_of (state_after o module) (made 0));
      [ reflexivity | contradiction ].
  - vm_compute. reflexivity.
  - vm_compute. reflexivity.
Qed.

(** * Further properties of the cycle detector *)

Section DetectorDecides.
Context {T : Type}.
Variable eqb : T -> T -> bool.
Variable f : T -> T.

Lemma detector_rounds (x : T) (g : Z) :
  Periodic.is_eventually_periodic eqb f x g = true <->
  exists k : nat,
    Z.of_nat k <= Z.max 0 g /\
    eqb (Periodic.iter f k x) (Periodic.iter f (S (k + k)) x) = true.
Proof.
  unfold Periodic.is_eventually_periodic, Periodic.final.
  rewrite <- PeriodicFacts.at_round_0.
  destruct (PeriodicFacts.while_trace eqb f (Z.to_nat g) x g 0)
    as (k & Hk & Hw & Hbefore & Hstop).
  rewrite Hw. cbn [Periodic.at_round Periodic.tortoise Periodic.hare].
  split.
  - intros H. exists k. split; [ lia | exact H ].
  - intros (k0 & Hk0 & Hmatch).
    destruct (eqb (Periodic.iter f k x) (Periodic.iter f (S (k + k)) x))
      eqn:E; [ reflexivity | exfalso ].
    assert (Hkn : k = Z.to_nat g).
    { destruct Hstop as [-> | Hstop]; [ reflexivity | ].
      unfold Periodic.continues in Hstop.
      cbn [Periodic.at_round Periodic.tortoise Periodic.hare Periodic.giveup]
        in Hstop.
      rewrite E in Hstop. simpl in Hstop. apply Z.ltb_ge in Hstop. lia. }
    destruct (decide (k0 = k)) as [-> | Hne]; [ congruence | ].
    specialize (Hbefore k0 ltac:(lia)).
    unfold Periodic.continues in Hbefore.
    cbn [Periodic.at_round Periodic.tortoise Periodic.hare] in Hbefore.
    rewrite Hmatch in Hbefore. discriminate.
Qed.

(** What the detector computes, for every value of [giveup]: it answers
    [True] exactly when some round [k] between 0 and [giveup] (round 0
    alone when [giveup] is zero or negative) has the tortoise [f^k(x)]
    equal to the hare [f^(2k+1)(x)]. *)
Theorem is_eventually_periodic_iff (x : T) (g : Z) :
  Periodic.is_eventually_periodic eqb f x g = true <->
  exists k : nat,
    Z.of_nat k <= Z.max 0 g /\
    eqb (Periodic.iter f k x) (Periodic.iter f (S (k + k)) x) = true.
Proof. exact (detector_rounds x g). Qed.

Lemma while_stopped (n : nat) (c : Periodic.cursors) :
  Periodic.continues eqb c = false -> Periodic.while eqb f n c = c.
Proof. destruct n as [ | n ]; simpl; [ reflexivity | now intros -> ]. Qed.

Lemma while_plus (a b : nat) (c : Periodic.cursors) :
  Periodic.while eqb f (a + b) c
    = Periodic.while eqb f b (Periodic.while eqb f a c).
Proof.
  revert c. induction a as [ | a IH ]; intros c; simpl; [ reflexivity | ].
  destruct (Periodic.continues eqb c) eqn:E; [ apply IH | ].
  symmetry. now apply while_stopped.
Qed.

(** The test [giveup > 0] ends the loop: however far the [while] loop is
    unrolled beyond [giveup] rounds, it is left in the same state, a state
    that fails the loop test, after at least 0 and at most
    [max(0, giveup)] rounds; and when the answer is [False] it ran all of
    these rounds. *)
Theorem loop_ends_within_giveup (x : T) (g : Z) (n : nat) :
  (Z.to_nat g <= n)%nat ->
  Periodic.while eqb f n (Periodic.start f x g) = Periodic.final eqb f x g /\
  Periodic.continues eqb (Periodic.final eqb f x g) = false /\
  0 <= Periodic.rounds eqb f x g <= Z.max 0 g /\
  (Periodic.is_eventually_periodic eqb f x g = false ->
   Periodic.rounds eqb f x g = Z.max 0 g).
Proof.
  intros Hn.
  assert (Hexit : Periodic.continues eqb (Periodic.final eqb f x g) = false).
  { apply PeriodicFacts.while_exits. unfold Periodic.start. simpl. lia. }
  split.
  { replace n with (Z.to_nat g + (n - Z.to_nat g))%nat by lia.
    rewrite while_plus. now apply while_stopped. }
  split; [ exact Hexit | ].
  revert Hexit.
  unfold Periodic.rounds, Periodic.is_eventually_periodic, Periodic.final.
  rewrite <- PeriodicFacts.at_round_0.
  destruct (PeriodicFacts.while_trace eqb f (Z.to_nat g) x g 0)
    as (k & Hk & Hw & _ & _).
  rewrite Hw. unfold Periodic.continues.
  cbn [Periodic.at_round Periodic.tortoise Periodic.hare Periodic.giveup].
  intros Hexit. split; [ lia | ].
  intros Hfalse. rewrite Hfalse in Hexit. simpl in Hexit.
  apply Z.ltb_ge in Hexit. lia.
Qed.

(** A larger [giveup] never turns the answer [True] into [False]. *)
Theorem is_eventually_periodic_mono (x : T) (g g' : Z) :
  g <= g' ->
  Periodic.is_eventually_periodic eqb f x g = true ->
  Periodic.is_eventually_periodic eqb f x g' = true.
Proof.
  intros Hg. rewrite !detector_rounds.
  intros (k & Hk & Hmatch). exists k. split; [ lia | exact Hmatch ].
Qed.

(** From the start of a period on, the sequence repeats with that
    period. *)
Lemma iter_period (x : T) (mu p : nat) :
  Periodic.iter f (mu + p) x = Periodic.iter f mu x ->
  forall (q j : nat), (mu <= j)%nat ->
    Periodic.iter f (j + q * p) x = Periodic.iter f j x.
Proof.
  intros Hp.
  assert (Hstep : forall j, (mu <= j)%nat ->
            Periodic.iter f (j + p) x = Periodic.iter f j x).
  { intros j Hj. replace j with ((j - mu) + mu)%nat by lia.
    generalize (j - mu)%nat as d. clear j Hj.
    induction d as [ | d IH ]; [ exact Hp | ].
    change (S d + mu + p)%nat with (S (d + mu + p)).
    change (S d + mu)%nat with (S (d + mu)).
    simpl. now rewrite IH. }
  induction q as [ | q IH ]; intros j Hj.
  - f_equal. lia.
  - replace (j + S q * p)%nat with ((j + p) + q * p)%nat by lia.
    rewrite IH by lia. now apply Hstep.
Qed.

(** Completeness: when the sequence from [x] is periodic with period [p]
    from index [mu] on, the detector answers [True] as soon as [giveup] is
    at least [mu + p - 1]. *)
Theorem is_eventually_periodic_complete (x : T) (mu p : nat) (g : Z) :
  (forall a : T, eqb a a = true) ->
  (0 < p)%nat ->
  Periodic.iter f (mu + p) x = Periodic.iter f mu x ->
  Z.of_nat (mu + p) <= g + 1 ->
  Periodic.is_eventually_periodic eqb f x g = true.
Proof.
  intros Hrefl Hpos Hp Hg. apply detector_rounds.
  (* the round k with k + 1 = p * q, the multiple of p in (mu, mu + p] *)
  set (q := ((mu + p) / p)%nat).
  assert (Hq : (mu < p * q <= mu + p)%nat).
  { unfold q. pose proof (Nat.div_mod_eq (mu + p) p) as Hdm.
    pose proof (Nat.mod_upper_bound (mu + p) p ltac:(lia)). lia. }
  exists (p * q - 1)%nat. split; [ lia | ].
  replace (S (p * q - 1 + (p * q - 1)))%nat
    with ((p * q - 1) + q * p)%nat by lia.
  rewrite (iter_period x mu p Hp q) by lia. apply Hrefl.
Qed.

(** Soundness: when the detector answers [True], some value of the
    sequence from [x] occurs at two different indices. *)
Theorem is_eventually_periodic_sound (x : T) (g : Z) :
  (forall a b : T, eqb a b = true -> a = b) ->
  Periodic.is_eventually_periodic eqb f x g = true ->
  exists i j : nat,
    (i < j)%nat /\ Periodic.iter f i x = Periodic.iter f j x.
Proof.
  intros Heq H. apply detector_rounds in H.
  destruct H as (k & _ & Hmatch).
  exists k, (S (k + k)). split; [ lia | now apply Heq ].
Qed.

End DetectorDecides.

Lemma loop_ends_within_giveup_witness :
  Periodic.while Z.eqb rho 10 (Periodic.start rho 0 2)
    = Periodic.final Z.eqb rho 0 2 /\
  Periodic.continues Z.eqb (Periodic.final Z.eqb rho 0 2) = false /\
  0 <= Periodic.rounds Z.eqb rho 0 2 <= Z.max 0 2 /\
  (Periodic.is_eventually_periodic Z.eqb rho 0 2 = false ->
   Periodic.rounds Z.eqb rho 0 2 = Z.max 0 2).
Proof. apply (loop_ends_within_giveup Z.eqb rho 0 2 10). simpl. lia. Defined.

Lemma is_eventually_periodic_mono_witness :
  Periodic.is_eventually_periodic Z.eqb rho 0 7 = true.
Proof.
  apply (is_eventually_periodic_mono Z.eqb rho 0 3 7); [ lia | reflexivity ].
Defined.

Lemma is_eventually_periodic_complete_witness :
  Periodic.is_eventually_periodic Z.eqb rho 0 3 = true.
Proof.
  apply (is_eventually_periodic_complete Z.eqb rho 0 2 2 3).
  - intros a. apply Z.eqb_refl.
  - lia.
  - reflexivity.
  - simpl. lia.
Defined.

Lemma is_eventually_periodic_sound_witness :
  exists i j : nat,
    (i < j)%nat /\ Periodic.iter rho i 0 = Periodic.iter rho j 0.
Proof.
  apply (is_eventually_periodic_sound Z.eqb rho 0 3).
  - intros a b H. now apply Z.eqb_eq.
  - reflexivity.
Defined.

(** * Rising and falling powers *)

Lemma fold_left_mul (xs : list Z) (a : Z) :
  fold_left Z.mul xs a = a * product xs.
Proof.
  revert a. induction xs as [ | x xs IH ]; intros a; simpl.
  - unfold product. simpl. lia.
  - rewrite IH. unfold product. simpl. lia.
Qed.

Lemma reduce_mul (xs : list Z) :
  xs <> [] -> reduce Z.mul xs = Some (product xs).
Proof.
  destruct xs as [ | x xs ]; [ congruence | intros _ ].
  simpl. now rewrite fold_left_mul.
Qed.

Lemma product_app (xs ys : list Z) :
  product (xs ++ ys) = product xs * product ys.
Proof.
  unfold product. induction xs as [ | x xs IH ]; simpl; [ lia | ].
  rewrite IH. lia.
Qed.

Lemma product_reverse (xs : list Z) : product (reverse xs) = product xs.
Proof.
  induction xs as [ | x xs IH ]; [ reflexivity | ].
  rewrite reverse_cons, product_app, IH. unfold product. simpl. lia.
Qed.

Lemma seqZ_not_nil (m n : Z) : 0 < n -> seqZ m n <> [].
Proof. intros H. rewrite seqZ_cons by lia. discriminate. Qed.

Lemma reverse_not_nil {A : Type} (xs : list A) : xs <> [] -> reverse xs <> [].
Proof.
  destruct xs as [ | x xs ]; [ congruence | intros _ ].
  rewrite reverse_cons. now destruct (reverse xs).
Qed.

Lemma product_seqZ_1 (m : Z) : product (seqZ m 1) = m.
Proof.
  rewrite seqZ_cons, seqZ_nil by lia. unfold product. simpl. lia.
Qed.

(** With at least one factor, the two powers are the products of their
    ranges. *)
Lemma rising_power_product (n k : Z) :
  0 < k -> rising_power n k = Some (product (seqZ n k)).
Proof.
  intros Hk. unfold rising_power, py_range.
  replace (n + k - n) with k by lia.
  apply reduce_mul. now apply seqZ_not_nil.
Qed.

Lemma falling_power_product (n k : Z) :
  0 < k -> falling_power n k = Some (product (seqZ (n - k + 1) k)).
Proof.
  intros Hk. unfold falling_power, py_range.
  replace (n + 1 - (n - k + 1)) with k by lia.
  rewrite reduce_mul by (apply reverse_not_nil; now apply seqZ_not_nil).
  now rewrite product_reverse.
Qed.

(** With no factor at all, that is for [k <= 0], both powers raise the
    [TypeError] of [reduce] on an empty sequence: also [falling_power(0, 0)]
    and [rising_power(n, 0)], whose mathematical value is 1. *)
Theorem powers_raise_without_factors (n k : Z) :
  k <= 0 -> rising_power n k = None /\ falling_power n k = None.
Proof.
  intros Hk. unfold rising_power, falling_power, py_range.
  rewrite !seqZ_nil by lia. split; reflexivity.
Qed.

Lemma powers_raise_without_factors_witness :
  rising_power 10 0 = None /\ falling_power 0 0 = None.
Proof.
  split.
  - apply (powers_raise_without_factors 10 0). lia.
  - apply (powers_raise_without_factors 0 0). lia.
Defined.

(** The falling power from [n] is the rising power from [n - k + 1]: the
    same factors, multiplied in the opposite order. *)
Theorem falling_power_is_rising_power (n k : Z) :
  falling_power n k = rising_power (n - k + 1) k.
Proof.
  destruct (decide (0 < k)) as [Hk | Hk].
  - now rewrite falling_power_product, rising_power_product.
  - unfold falling_power, rising_power, py_range.
    now rewrite !seqZ_nil by lia.
Qed.

(** One more factor: [rising_power(n, k+1)] is [rising_power(n, k)] times
    [n + k], and [falling_power(n, k+1)] is [falling_power(n, k)] times
    [n - k], for [k >= 1]; with one factor both are [n]. *)
Theorem powers_step (n k : Z) :
  0 < k ->
  rising_power n 1 = Some n /\
  falling_power n 1 = Some n /\
  rising_power n (k + 1) = (fun r => r * (n + k)) <$> rising_power n k /\
  falling_power n (k + 1) = (fun r => r * (n - k)) <$> falling_power n k.
Proof.
  intros Hk. split; [ | split; [ | split ] ].
  - rewrite rising_power_product by lia. now rewrite product_seqZ_1.
  - rewrite falling_power_product by lia.
    replace (n - 1 + 1) with n by lia. now rewrite product_seqZ_1.
  - rewrite !rising_power_product by lia.
    rewrite seqZ_app, product_app, product_seqZ_1 by lia. reflexivity.
  - rewrite !falling_power_product by lia.
    rewrite (seqZ_cons (n - (k + 1) + 1)) by lia.
    replace (Z.succ (n - (k + 1) + 1)) with (n - k + 1) by lia.
    replace (Z.pred (k + 1)) with k by lia.
    simpl. f_equal. unfold product. simpl. fold (product (seqZ (n - k + 1) k)).
    lia.
Qed.

Lemma powers_step_witness :
  rising_power 10 1 = Some 10 /\
  falling_power 10 1 = Some 10 /\
  rising_power 10 (2 + 1) = (fun r => r * (10 + 2)) <$> rising_power 10 2 /\
  falling_power 10 (2 + 1) = (fun r => r * (10 - 2)) <$> falling_power 10 2.
Proof. apply (powers_step 10 2). lia. Defined.

(** A falling power with more factors than [n], for [n >= 0], has the
    factor 0 and is 0. *)
Theorem falling_power_zero (n k : Z) :
  0 <= n < k -> falling_power n k = Some 0.
Proof.
  intros Hnk. rewrite falling_power_product by lia. f_equal.
  replace k with ((k - n - 1) + (1 + n)) at 2 by lia.
  rewrite seqZ_app, product_app by lia.
  rewrite (seqZ_cons _ (1 + n)) by lia.
  replace (n - k + 1 + (k - n - 1)) with 0 by lia.
  unfold product at 2. simpl. lia.
Qed.

Lemma falling_power_zero_witness : falling_power 3 5 = Some 0.
Proof. apply (falling_power_zero 3 5). lia. Defined.

(** [falling_power(n, n)] and [rising_power(1, n)] are the factorial of
    [n], for [n >= 1]. *)
Theorem powers_factorial (n : nat) :
  (0 < n)%nat ->
  falling_power (Z.of_nat n) (Z.of_nat n) = Some (Z.of_nat (fact n)) /\
  rising_power 1 (Z.of_nat n) = Some (Z.of_nat (fact n)).
Proof.
  intros Hn.
  assert (H : rising_power 1 (Z.of_nat n) = Some (Z.of_nat (fact n))).
  { rewrite rising_power_product by lia. f_equal.
    clear Hn. induction n as [ | n IH ]; [ reflexivity | ].
    rewrite seqZ_S, product_app, IH.
    unfold product at 1. cbn [foldr fact]. lia. }
  split; [ | exact H ].
  rewrite rising_power_product in H by lia.
  rewrite falling_power_product by lia.
  now replace (Z.of_nat n - Z.of_nat n + 1) with 1 by lia.
Qed.

Lemma powers_factorial_witness :
  falling_power (Z.of_nat 5) (Z.of_nat 5) = Some (Z.of_nat (fact 5)) /\
  rising_power 1 (Z.of_nat 5) = Some (Z.of_nat (fact 5)).
Proof. apply (powers_factorial 5). lia. Defined.

(** * The maximum of functions *)

Lemma fold_left_max_bounds (xs : list Z) (a : Z) :
  a <= fold_left Z.max xs a /\
  Forall (fun x => x <= fold_left Z.max xs a) xs /\
  (fold_left Z.max xs a = a \/ fold_left Z.max xs a ∈ xs).
Proof.
  revert a. induction xs as [ | x xs IH ]; intros a; simpl.
  - split; [ lia | ]. split; [ constructor | now left ].
  - destruct (IH (Z.max a x)) as (Hlo & Hall & Hin).
    split; [ lia | ]. split.
    + constructor; [ lia | exact Hall ].
    + destruct Hin as [Hin | Hin].
      * rewrite Hin. destruct (Z.max_spec a x) as [[_ ->] | [_ ->]];
          [ right; left | now left ].
      * right. now right.
Qed.

(** The function that [max_func] returns raises exactly when it was made
    from no function at all; otherwise its value at [a] is the value of one
    of the functions at [a], and no function has a larger value there. *)
Theorem max_func_is_the_maximum {A : Type} (funcs : list (A -> Z)) (a : A) :
  (max_func funcs a = None <-> funcs = []) /\
  (forall r : Z,
     max_func funcs a = Some r ->
     (forall f, f ∈ funcs -> f a <= r) /\
     (exists f, f ∈ funcs /\ f a = r)).
Proof.
  unfold max_func. destruct funcs as [ | f0 fs ]; simpl.
  - split; [ split; reflexivity | discriminate ].
  - split; [ split; discriminate | ].
    intros r [= <-].
    destruct (fold_left_max_bounds ((fun f => f a) <$> fs) (f0 a))
      as (Hlo & Hall & Hin).
    split.
    + intros f Hf. apply elem_of_cons in Hf as [-> | Hf]; [ exact Hlo | ].
      rewrite Forall_forall in Hall. apply Hall.
      now apply (list_elem_of_fmap_2 (fun f => f a)).
    + destruct Hin as [Hin | Hin].
      * exists f0. split; [ left | exact (eq_sym Hin) ].
      * apply list_elem_of_fmap_1 in Hin as (f & Hr & Hf).
        exists f. split; [ now right | exact (eq_sym Hr) ].
Qed.

(** * The tabulated Q sequence *)

Lemma hof_append_snoc (Q Q' : list Z) (i : Z) :
  hof_append Q i = Some Q' -> exists q : Z, Q' = Q ++ [q].
Proof.
  unfold hof_append. intros H.
  repeat match type of H with
         | match ?o with _ => _ end = _ => destruct o; [ | discriminate ]
         end.
  injection H as <-. eauto.
Qed.

Lemma hof_fill_grows (idx : list Z) (Q : list Z) :
  Q `prefix_of` (hof_fill idx Q).2 /\
  (length (hof_fill idx Q).2 <= length Q + length idx)%nat /\
  ((hof_fill idx Q).1 = true ->
   length (hof_fill idx Q).2 = (length Q + length idx)%nat).
Proof.
  revert Q. induction idx as [ | i idx IH ]; intros Q; simpl.
  - split; [ reflexivity | ]. split; lia.
  - destruct (hof_append Q i) as [ Q' | ] eqn:E; simpl.
    + destruct (hof_append_snoc _ _ _ E) as (q & ->).
      destruct (IH (Q ++ [q])) as (Hpre & Hle & Hok).
      rewrite length_app in Hle, Hok. simpl in Hle, Hok.
      split; [ | split ].
      * etransitivity; [ | exact Hpre ]. now apply prefix_app_r.
      * lia.
      * intros H. rewrite Hok by exact H. lia.
    + split; [ reflexivity | ]. split; [ lia | discriminate ].
Qed.

(** [hof_qt] never changes or removes an entry of the table: whatever [n]
    is, and also when the call ends in an [IndexError], the table it
    leaves starts with the table it found. *)
Theorem hof_qt_keeps_entries (n : Z) (Q : list Z) :
  Q `prefix_of` (hof_qt n Q).2.
Proof.
  unfold hof_qt. destruct (Z.of_nat (length Q) <=? n); [ | reflexivity ].
  pose proof (hof_fill_grows (py_range (Z.of_nat (length Q)) (n + 1)) Q)
    as (Hpre & _ & _).
  destruct (hof_fill _ Q) as [[ | ] Q']; exact Hpre.
Qed.

(** Below the length of the table [hof_qt] is a lookup that leaves the
    table as it is: entry [n] for [0 <= n], the entry [len(Q) + n] counted
    from the end for [-len(Q) <= n < 0], so that [hof_qt(-1)] is the last
    entry, and an [IndexError] below that. *)
Theorem hof_qt_lookup (n : Z) (Q : list Z) :
  n < Z.of_nat (length Q) ->
  (hof_qt n Q).2 = Q /\
  (0 <= n -> (hof_qt n Q).1 = Q !! Z.to_nat n /\ is_Some (hof_qt n Q).1) /\
  (- Z.of_nat (length Q) <= n < 0 ->
   (hof_qt n Q).1 = Q !! (length Q - Z.to_nat (- n))%nat /\
   is_Some (hof_qt n Q).1) /\
  (n < - Z.of_nat (length Q) -> (hof_qt n Q).1 = None).
Proof.
  intros Hn. unfold hof_qt.
  replace (Z.of_nat (length Q) <=? n) with false
    by (symmetry; apply Z.leb_gt; lia).
  cbn [fst snd]. split; [ reflexivity | ]. unfold py_index.
  split; [ | split ].
  - intros H0. replace (0 <=? n) with true by (symmetry; apply Z.leb_le; lia).
    split; [ reflexivity | ]. apply lookup_lt_is_Some. lia.
  - intros H0. replace (0 <=? n) with false
      by (symmetry; apply Z.leb_gt; lia).
    replace (- Z.of_nat (length Q) <=? n) with true
      by (symmetry; apply Z.leb_le; lia).
    replace (Z.to_nat (Z.of_nat (length Q) + n))
      with (length Q - Z.to_nat (- n))%nat by lia.
    split; [ reflexivity | ]. apply lookup_lt_is_Some. lia.
  - intros H0. replace (0 <=? n) with false
      by (symmetry; apply Z.leb_gt; lia).
    now replace (- Z.of_nat (length Q) <=? n) with false
      by (symmetry; apply Z.leb_gt; lia).
Qed.

Lemma hof_qt_lookup_witness :
  (hof_qt (-1) [0; 1; 1]).2 = [0; 1; 1] /\
  (0 <= -1 ->
   (hof_qt (-1) [0; 1; 1]).1 = [0; 1; 1] !! Z.to_nat (-1) /\
   is_Some (hof_qt (-1) [0; 1; 1]).1) /\
  (- Z.of_nat (length [0; 1; 1]) <= -1 < 0 ->
   (hof_qt (-1) [0; 1; 1]).1
     = [0; 1; 1] !! (length [0; 1; 1] - Z.to_nat (- -1))%nat /\
   is_Some (hof_qt (-1) [0; 1; 1]).1) /\
  (-1 < - Z.of_nat (length [0; 1; 1]) -> (hof_qt (-1) [0; 1; 1]).1 = None).
Proof. apply (hof_qt_lookup (-1) [0; 1; 1]). simpl. lia. Defined.

(** When [hof_qt(n)] returns for an [n] at or beyond the length of the
    table, the table it leaves has exactly [n + 1] entries and the result
    is its last entry. *)
Theorem hof_qt_extends (n : Z) (Q : list Z) (v : Z) :
  Z.of_nat (length Q) <= n ->
  (hof_qt n Q).1 = Some v ->
  Z.of_nat (length (hof_qt n Q).2) = n + 1 /\
  last (hof_qt n Q).2 = Some v.
Proof.
  intros Hn. unfold hof_qt.
  replace (Z.of_nat (length Q) <=? n) with true
    by (symmetry; apply Z.leb_le; lia).
  pose proof (hof_fill_grows (py_range (Z.of_nat (length Q)) (n + 1)) Q)
    as (_ & _ & Hok).
  destruct (hof_fill _ Q) as [[ | ] Q']; cbn [fst snd] in *;
    [ | discriminate ].
  specialize (Hok eq_refl). unfold py_range in Hok.
  rewrite length_seqZ in Hok. intros Hv.
  split; [ lia | ].
  unfold py_index in Hv.
  replace (0 <=? n) with true in Hv by (symmetry; apply Z.leb_le; lia).
  rewrite last_lookup, <- Hv. f_equal. lia.
Qed.

Lemma hof_qt_extends_witness :
  Z.of_nat (length (hof_qt 10 [0; 1; 1]).2) = 10 + 1 /\
  last (hof_qt 10 [0; 1; 1]).2 = Some 6.
Proof. apply (hof_qt_extends 10 [0; 1; 1] 6); [ simpl; lia | reflexivity ]. Defined.

Lemma hof_qt_result (n : Z) (Q : list Z) (v : Z) :
  (hof_qt n Q).1 = Some v ->
  py_index (hof_qt n Q).2 n = Some v /\
  n < Z.of_nat (length (hof_qt n Q).2).
Proof.
  intros Hv. split.
  - revert Hv. unfold hof_qt.
    destruct (Z.of_nat (length Q) <=? n); [ | exact id ].
    destruct (hof_fill _ Q) as [[ | ] Q']; cbn [fst snd];
      [ exact id | discriminate ].
  - revert Hv. unfold hof_qt.
    destruct (Z.leb_spec (Z.of_nat (length Q)) n) as [Hn | Hn];
      [ | cbn [snd]; lia ].
    pose proof (hof_fill_grows (py_range (Z.of_nat (length Q)) (n + 1)) Q)
      as (_ & _ & Hok).
    destruct (hof_fill _ Q) as [[ | ] Q']; cbn [fst snd] in *;
      [ | discriminate ].
    specialize (Hok eq_refl). unfold py_range in Hok.
    rewrite length_seqZ in Hok. lia.
Qed.

(** A call that returned can be repeated: on the table it left, the same
    call returns the same value and changes nothing. *)
Theorem hof_qt_again (n : Z) (Q : list Z) (v : Z) :
  (hof_qt n Q).1 = Some v ->
  hof_qt n (hof_qt n Q).2 = (Some v, (hof_qt n Q).2).
Proof.
  intros Hv. destruct (hof_qt_result n Q v Hv) as (Hidx & Hlen).
  generalize dependent (hof_qt n Q).2. intros Q' Hidx Hlen.
  unfold hof_qt.
  replace (Z.of_nat (length Q') <=? n) with false
    by (symmetry; apply Z.leb_gt; lia).
  now rewrite Hidx.
Qed.

Lemma hof_qt_again_witness :
  hof_qt 10 (hof_qt 10 [0; 1; 1]).2 = (Some 6, (hof_qt 10 [0; 1; 1]).2).
Proof. apply (hof_qt_again 10 [0; 1; 1] 6). reflexivity. Defined.

(** * What calls keep *)

Lemma same_object_refl (o : fobj) : same_object o o.
Proof. destruct o; simpl; auto with lia. Qed.

Lemma same_object_trans (o1 o2 o3 : fobj) :
  same_object o1 o2 -> same_object o2 o3 -> same_object o1 o3.
Proof.
  destruct o1, o2; simpl; try discriminate; try (intros [= -> ->]; exact id);
    try (intros _; exact id); destruct o3; simpl;
    try discriminate; try (intros _ [_ []]; fail).
  all: try (intros [-> H12] [-> H23]; split; [ reflexivity | ]).
  - intros k Hk. auto.
  - lia.
Qed.

Lemma grows_refl (st : state) : grows st st.
Proof.
  split; [ reflexivity | ]. intros id o H. exists o.
  split; [ exact H | apply same_object_refl ].
Qed.

Lemma grows_trans (st1 st2 st3 : state) :
  grows st1 st2 -> grows st2 st3 -> grows st1 st3.
Proof.
  intros [G12 H12] [G23 H23]. split; [ congruence | ].
  intros id o H. destruct (H12 _ _ H) as (o2 & H2 & S12).
  destruct (H23 _ _ H2) as (o3 & H3 & S23).
  exists o3. split; [ exact H3 | ]. eapply same_object_trans; eassumption.
Qed.

Lemma grows_alloc (o : fobj) (st : state) : grows st (alloc o st).2.
Proof.
  split; [ reflexivity | ]. intros id o0 H. exists o0. simpl.
  split; [ | apply same_object_refl ].
  rewrite lookup_app_l by (eapply lookup_lt_Some; exact H). exact H.
Qed.

Lemma grows_insert (st : state) (id : nat) (o o' : fobj) :
  heap st !! id = Some o -> same_object o o' ->
  grows st (State (<[id := o']> (heap st)) (globals st)).
Proof.
  intros H S. split; [ reflexivity | ]. intros id0 o0 H0. cbn [heap].
  destruct (decide (id = id0)) as [<- | Hne].
  - exists o'. split; [ | congruence ].
    apply list_lookup_insert_eq. eapply lookup_lt_Some; exact H.
  - exists o0. rewrite list_lookup_insert_ne by exact Hne.
    split; [ exact H0 | apply same_object_refl ].
Qed.

Lemma grows_store_result id args res (st : state) :
  grows st (store_result id args res st).
Proof.
  unfold store_result.
  destruct (heap st !! id) as [ [ | | f results | | ] | ] eqn:E;
    try apply grows_refl.
  eapply grows_insert; [ exact E | ]. simpl. split; [ reflexivity | ].
  intros k Hk. destruct (decide (args = k)) as [<- | Hne].
  - rewrite lookup_insert_eq. eauto.
  - now rewrite lookup_insert_ne.
Qed.

Lemma grows_increment id (st : state) : grows st (increment id st).
Proof.
  unfold increment.
  destruct (heap st !! id) as [ [ | | | | f count ] | ] eqn:E;
    try apply grows_refl.
  eapply grows_insert; [ exact E | ]. simpl. split; [ reflexivity | lia ].
Qed.

Lemma exec_grows
    (callf : value -> list value -> kwargs -> state -> outcome value) :
  (forall fn args kw st, ends_grown st (callf fn args kw st)) ->
  forall b st, ends_grown st (exec callf b st).
Proof.
  intros Hc b.
  induction b as [ v | e | name k IH | fn args kw k IH ]; simpl; intros st.
  - apply grows_refl.
  - apply grows_refl.
  - destruct (globals st !! name); [ apply IH | apply grows_refl ].
  - specialize (Hc fn args kw st).
    destruct (callf fn args kw st) as [ v st' | e st' | ]; simpl in *;
      [ | exact Hc | exact I ].
    specialize (IH v st').
    destruct (exec callf (k v) st') as [ v' st'' | e st'' | ]; simpl in *;
      [ | | exact I ]; eapply grows_trans; eassumption.
Qed.

Lemma call_ends_grown (fuel : nat) fn args kw st :
  ends_grown st (call fuel fn args kw st).
Proof.
  revert fn args kw st.
  induction fuel as [ | fuel IH ]; intros fn args kw st; simpl;
    [ exact I | ].
  destruct fn as [ | | | | | id ]; try apply grows_refl.
  destruct (heap st !! id) as [ [ params code | | f results | | f count ] | ]
    eqn:E; try apply grows_refl.
  - destruct (bind_params params args kw); [ | apply grows_refl ].
    apply exec_grows. exact IH.
  - match goal with
    | |- ends_grown _ (match ?b with _ => _ end) =>
        destruct b as [ [ | f [ | ] ] | ]
    end; try apply grows_refl.
    apply (grows_alloc (LookupF f ∅) st).
  - destruct kw; [ | apply grows_refl ].
    destruct (forallb hashable args); [ | apply grows_refl ].
    destruct (default VNone (results !! args)); try apply grows_refl.
    specialize (IH f args [] st).
    destruct (call fuel f args [] st) as [ res st' | e st' | ]; simpl in *;
      [ | exact IH | exact I ].
    eapply grows_trans; [ exact IH | apply grows_store_result ].
  - match goal with
    | |- ends_grown _ (match ?b with _ => _ end) =>
        destruct b as [ [ | f [ | ] ] | ]
    end; try apply grows_refl.
    apply (grows_alloc (Cf f 0) st).
  - specialize (IH f args kw (increment id st)).
    destruct (call fuel f args kw (increment id st)) as [ v st' | e st' | ];
      simpl in *; [ | | exact I ];
      (eapply grows_trans; [ apply grows_increment | exact IH ]).
Qed.

(** For the function objects of the model, that is [memoize], [counter],
    the closures [lookup_f] and [cf], and every [def] whose body returns,
    raises, reads module-level names and calls function objects (as
    [fib], [kf], [collatz] and [hof_q] do; a [def] that assigns a
    module-level name, and the closure [reset_count], are not among
    them): whatever of these is called, with whatever arguments, and also
    when the call ends in an exception, no function object is removed or
    replaced by one of another kind, a closure keeps the function it
    captured, no key leaves a dictionary [results], no count goes down,
    and the module-level names stay bound as they were. *)
Theorem call_grows (fuel : nat) fn args kw st :
  ends_grown st (call fuel fn args kw st).
Proof. exact (call_ends_grown fuel fn args kw st). Qed.

(** * Further properties of [memoize] and [counter] *)

Lemma call_def n st id params code args kw vs :
  heap st !! id = Some (Def params code) ->
  bind_params params args kw = Some vs ->
  call (S n) (VFun id) args kw st = exec (call n) (code vs) st.
Proof. intros H Hb. simpl. now rewrite H, Hb. Qed.

Lemma call_def_fails n st id params code args kw e :
  heap st !! id = Some (Def params code) ->
  fails_at_once params code args kw e ->
  call (S n) (VFun id) args kw st = Exn e st.
Proof.
  intros H [[Hb ->] | (vs & Hb & Hc)]; simpl; rewrite H, Hb;
    [ reflexivity | now rewrite Hc ].
Qed.

(** Without the self-application, [memoize] makes a new closure at every
    call: two calls [memoize(f)] return two different objects, neither of
    which existed before, each a [lookup_f] around [f] with a dictionary
    of its own that is empty.  This is why [fib is oldfib] is [False]. *)
Theorem memoize_makes_new_objects (n : nat) (st : state) (m : nat)
    (f : value) :
  heap st !! m = Some Memoize ->
  exists (w1 w2 : nat) (st1 st2 : state),
    call (S n) (VFun m) [f] [] st = Ok (VFun w1) st1 /\
    call (S n) (VFun m) [f] [] st1 = Ok (VFun w2) st2 /\
    w1 <> w2 /\
    heap st !! w1 = None /\ heap st !! w2 = None /\
    heap st2 !! w1 = Some (LookupF f ∅) /\
    heap st2 !! w2 = Some (LookupF f ∅).
Proof.
  intros Hm.
  eexists _, _, _, _. split; [ apply call_memoize; exact Hm | ].
  split.
  { apply call_memoize. cbn [heap].
    rewrite lookup_app_l by (eapply lookup_lt_Some; exact Hm). exact Hm. }
  cbn [heap]. rewrite length_app. cbn [length].
  split; [ lia | ].
  split; [ apply lookup_ge_None; lia | ].
  split; [ apply lookup_ge_None; lia | ].
  split.
  - rewrite lookup_app_l by (rewrite length_app; simpl; lia).
    now apply list_lookup_middle.
  - apply list_lookup_middle. rewrite length_app. reflexivity.
Qed.

Lemma memoize_makes_new_objects_witness :
  exists (w1 w2 : nat) (st1 st2 : state),
    call 1 (VFun memoize_def) [VFun fib_def] [] module = Ok (VFun w1) st1 /\
    call 1 (VFun memoize_def) [VFun fib_def] [] st1 = Ok (VFun w2) st2 /\
    w1 <> w2 /\
    heap module !! w1 = None /\ heap module !! w2 = None /\
    heap st2 !! w1 = Some (LookupF (VFun fib_def) ∅) /\
    heap st2 !! w2 = Some (LookupF (VFun fib_def) ∅).
Proof.
  apply (memoize_makes_new_objects 0 module memoize_def (VFun fib_def)).
  reflexivity.
Defined.

(** An exception is not cached: when the memoized [def] fails at once on
    arguments that have no entry, the memoized call raises the same
    exception and leaves the state, the dictionary included, as it was, so
    that the next call with these arguments fails in the same way. *)
Theorem memoized_error_not_cached (n : nat) (st : state) (g fid : nat)
    (params : list string) (code : list value -> body) (results : dict)
    (args : list value) (e : exn) :
  heap st !! g = Some (LookupF (VFun fid) results) ->
  heap st !! fid = Some (Def params code) ->
  forallb hashable args = true ->
  results !! args = None ->
  fails_at_once params code args [] e ->
  call (S (S n)) (VFun g) args [] st = Exn e st.
Proof.
  intros Hg Hf Hh Hr He.
  rewrite (call_lookup_f_miss _ _ _ _ _ _ Hg Hh) by now rewrite Hr.
  now rewrite (call_def_fails _ _ _ _ _ _ _ _ Hf He).
Qed.

Lemma memoized_error_not_cached_witness :
  call 2 (VFun (made 0)) [VInt 1; VInt 2] [] kf_memoized
    = Exn TypeError_signature kf_memoized.
Proof.
  apply (memoized_error_not_cached 0 kf_memoized (made 0) kf_def ["x"]
           kf_code ∅ [VInt 1; VInt 2] TypeError_signature);
    try reflexivity.
  left. split; reflexivity.
Defined.

(** A result other than [None] that a memoized call returned is served
    from the dictionary from then on, whatever the memoized function is
    and whatever it called: the same call in the state the first one left
    returns the same value with one unit of fuel, so without calling
    anything, and leaves that state as it is. *)
Theorem memoized_call_repeats (n m : nat) (st st' : state) (g : nat)
    (f : value) (results : dict) (args : list value) (v : value) :
  heap st !! g = Some (LookupF f results) ->
  call (S n) (VFun g) args [] st = Ok v st' ->
  v <> VNone ->
  call (S m) (VFun g) args [] st' = Ok v st'.
Proof.
  intros Hg Hcall Hv.
  destruct (forallb hashable args) eqn:Hh;
    [ | rewrite (call_lookup_f_unhashable _ _ _ _ _ _ Hg Hh) in Hcall;
        discriminate ].
  destruct (default VNone (results !! args)) eqn:E.
  1: { rewrite (call_lookup_f_miss _ _ _ _ _ _ Hg Hh E) in Hcall.
       pose proof (call_ends_grown n f args [] st) as Hgrow.
       destruct (call n f args [] st) as [ res st'' | | ];
         try discriminate.
       injection Hcall as -> <-. simpl in Hgrow.
       destruct Hgrow as [_ Hobj].
       destruct (Hobj _ _ Hg) as (o' & Ho' & Hsame).
       destruct o' as [ | | f' r'' | | ]; simpl in Hsame;
         try discriminate.
       destruct Hsame as [-> _].
       eapply call_lookup_f_hit; [ | exact Hh | | exact Hv ].
       - unfold store_result. rewrite Ho'. cbn [heap].
         apply list_lookup_insert_eq. eapply lookup_lt_Some; exact Ho'.
       - apply lookup_insert_eq. }
  all: destruct (results !! args) as [ r | ] eqn:Er; simpl in E;
    [ subst r | discriminate ];
    rewrite (call_lookup_f_hit _ _ _ _ _ _ _ Hg Hh Er) in Hcall
      by discriminate;
    injection Hcall as <- <-;
    now apply (call_lookup_f_hit _ _ _ _ _ _ _ Hg Hh Er).
Qed.

Lemma memoized_call_repeats_witness :
  call 1 (VFun (made 0)) [VInt 10] []
       (state_after (call 21 (VFun (made 0)) [VInt 10] [] fib_memoized)
          module)
    = Ok (VInt 89)
        (state_after (call 21 (VFun (made 0)) [VInt 10] [] fib_memoized)
           module).
Proof.
  apply (memoized_call_repeats 20 0 fib_memoized _ (made 0) (VFun fib_def) ∅
           [VInt 10] (VInt 89)).
  - reflexivity.
  - apply returns_Ok. vm_compute. reflexivity.
  - discriminate.
Defined.

(** One call of a closure [cf] around a [def] whose body returns at once,
    with whatever positional and keyword arguments fit the [def]. *)
Lemma call_cf_return n st c fid params code count args kw vs v :
  heap st !! c = Some (Cf (VFun fid) count) ->
  heap st !! fid = Some (Def params code) ->
  bind_params params args kw = Some vs ->
  code vs = Return v ->
  call (S (S n)) (VFun c) args kw st
    = Ok v (State (<[c := Cf (VFun fid) (count + 1)]> (heap st))
                  (globals st)).
Proof.
  intros Hc Hf Hb Hcode.
  rewrite (call_cf _ _ _ _ _ _ _ Hc).
  eapply call_def_return; [ | exact Hb | exact Hcode ].
  cbn [heap]. rewrite list_lookup_insert_ne by congruence. exact Hf.
Qed.

(** The counter counts: [k] calls of [counter(f)], with positional or
    keyword arguments that [f] accepts, add exactly [k] to the count, and
    [reset_count] then sets it to zero. *)
Theorem counter_counts_calls (k n : nat) (st : state) (c fid : nat)
    (params : list string) (code : list value -> body) (count : Z)
    (args : list value) (kw : kwargs) (vs : list value) (v : value) :
  heap st !! c = Some (Cf (VFun fid) count) ->
  heap st !! fid = Some (Def params code) ->
  bind_params params args kw = Some vs ->
  code vs = Return v ->
  exists st' : state,
    call_times k (S (S n)) (VFun c) args kw st = Ok tt st' /\
    get_count st' c = Some (count + Z.of_nat k) /\
    get_count (reset_count c st') c = Some 0.
Proof.
  intros Hc Hf Hb Hcode. revert st count Hc Hf.
  induction k as [ | k IH ]; intros st count Hc Hf.
  - exists st. split; [ reflexivity | ].
    split.
    + unfold get_count. rewrite Hc. f_equal. lia.
    + now apply (get_count_reset st c (VFun fid) count).
  - cbn [call_times]. unfold bind.
    rewrite (call_cf_return n st c fid params code count args kw vs v
               Hc Hf Hb Hcode).
    destruct (IH (State (<[c := Cf (VFun fid) (count + 1)]> (heap st))
                        (globals st)) (count + 1)) as (st' & Hrun & Hcnt & Hr).
    + cbn [heap]. apply list_lookup_insert_eq.
      eapply lookup_lt_Some; exact Hc.
    + cbn [heap]. rewrite list_lookup_insert_ne by congruence. exact Hf.
    + exists st'. split; [ exact Hrun | ]. split; [ | exact Hr ].
      rewrite Hcnt. f_equal. lia.
Qed.

Lemma counter_counts_calls_witness :
  exists st' : state,
    call_times 3 2 (VFun (made 0)) [] [("x", VInt 7)] kf_counted
      = Ok tt st' /\
    get_count st' (made 0) = Some (0 + Z.of_nat 3) /\
    get_count (reset_count (made 0) st') (made 0) = Some 0.
Proof.
  apply (counter_counts_calls 3 0 kf_counted (made 0) kf_def ["x"] kf_code 0
           [] [("x", VInt 7)] [VInt 7] (VInt 7)); reflexivity.
Defined.

(** A call that raises is counted too: the count goes up before the
    counted function is called. *)
Theorem counter_counts_failed_call (n : nat) (st : state) (c fid : nat)
    (params : list string) (code : list value -> body) (count : Z)
    (args : list value) (kw : kwargs) (e : exn) :
  heap st !! c = Some (Cf (VFun fid) count) ->
  heap st !! fid = Some (Def params code) ->
  fails_at_once params code args kw e ->
  exists st' : state,
    call (S (S n)) (VFun c) args kw st = Exn e st' /\
    get_count st' c = Some (count + 1).
Proof.
  intros Hc Hf He. eexists. split.
  - rewrite (call_cf _ _ _ _ _ _ _ Hc).
    eapply call_def_fails; [ | exact He ].
    cbn [heap]. rewrite list_lookup_insert_ne by congruence. exact Hf.
  - unfold get_count. cbn [heap].
    rewrite list_lookup_insert_eq by (eapply lookup_lt_Some; exact Hc).
    reflexivity.
Qed.

Lemma counter_counts_failed_call_witness :
  exists st' : state,
    call 2 (VFun (made 0)) [VInt 1; VInt 2] [] kf_counted
      = Exn TypeError_signature st' /\
    get_count st' (made 0) = Some (0 + 1).
Proof.
  apply (counter_counts_failed_call 0 kf_counted (made 0) kf_def ["x"]
           kf_code 0 [VInt 1; VInt 2] [] TypeError_signature);
    try reflexivity.
  left. split; reflexivity.
Defined.

(** Self-application and the order of wrappers and targets are kept by
    every call of the self-applied [memoize] on a function object that
    exists: afterwards [memoize] is still self-applied, every cached
    wrapper is still newer than its target, and the wrapper of [g] is
    cached. *)
Theorem self_applied_memoize_keeps (st : state) (w m : nat)
    (results : dict) (g : nat) :
  self_applied st w m results ->
  newer_wrappers st results ->
  (g < length (heap st))%nat ->
  exists (v : value) (st' : state) (results' : dict),
    (forall n : nat,
       call_name (S (S n)) "memoize" [VFun g] [] st = Ok v st') /\
    self_applied st' w m results' /\
    newer_wrappers st' results' /\
    results' !! [VFun g] = Some v.
Proof.
  intros H Hnew Hg.
  destruct (results !! [VFun g]) as [ v | ] eqn:E.
  - destruct (Hnew _ _ E) as (b & -> & Hb).
    exists (VFun b), st, results. split.
    + intros n.
      now rewrite (self_applied_memoize n _ _ _ _ (VFun g) H eq_refl), E.
    + split; [ exact H | ]. split; [ exact Hnew | exact E ].
  - eexists _, _, _. split.
    + intros n.
      rewrite (self_applied_memoize n _ _ _ _ (VFun g) H eq_refl), E.
      reflexivity.
    + split; [ apply self_applied_store; exact H | ].
      split; [ | apply lookup_insert_eq ].
      intros a v. cbn [heap]. rewrite length_insert, length_app. cbn [length].
      destruct (decide (a = g)) as [-> | Hne].
      * rewrite lookup_insert_eq. intros [= <-].
        exists (length (heap st)). split; [ reflexivity | lia ].
      * rewrite lookup_insert_ne by congruence. intros Ha.
        destruct (Hnew _ _ Ha) as (b & -> & Hb).
        exists b. split; [ reflexivity | lia ].
Qed.

Lemma self_applied_memoize_keeps_witness :
  exists (v : value) (st' : state) (results' : dict),
    (forall n : nat,
       call_name (S (S n)) "memoize" [VFun kf_def] [] self_memoized
         = Ok v st') /\
    self_applied st' (made 0) memoize_def results' /\
    newer_wrappers st' results' /\
    results' !! [VFun kf_def] = Some v.
Proof.
  apply (self_applied_memoize_keeps self_memoized (made 0) memoize_def ∅
           kf_def).
  - exact self_memoized_self_applied.
  - intros a v E. rewrite lookup_empty in E. discriminate.
  - vm_compute. lia.
Defined.

(** * The memoized [fib] in general *)

Lemma fib_value_small (z : Z) : z < 2 -> fib_value z = 1.
Proof.
  intros Hz. unfold fib_value.
  destruct (Z.to_nat z) as [ | [ | k ] ] eqn:E; [ reflexivity .. | lia ].
Qed.

Lemma fib_value_step (z : Z) :
  2 <= z -> fib_value z = fib_value (z - 1) + fib_value (z - 2).
Proof.
  intros Hz. unfold fib_value.
  replace (Z.to_nat z) with (S (S (Z.to_nat (z - 2)))) by lia.
  replace (Z.to_nat (z - 1)) with (S (Z.to_nat (z - 2))) by lia.
  cbn [fib_pair]. destruct (fib_pair (Z.to_nat (z - 2))) as [a b].
  cbn [fst]. lia.
Qed.

Lemma with_results_same st w f results :
  heap st !! w = Some (LookupF f results) -> with_results st w f results = st.
Proof.
  intros H. unfold with_results. rewrite list_insert_id by exact H.
  now destruct st.
Qed.

Lemma with_results_twice st w f r1 r2 :
  with_results (with_results st w f r1) w f r2 = with_results st w f r2.
Proof. unfold with_results. cbn [heap globals]. now rewrite list_insert_insert_eq. Qed.

Lemma fib_bound_with_results st w fd results r :
  fib_bound st w fd results ->
  fib_bound (with_results st w (VFun fd) r) w fd r.
Proof.
  intros (Hg & Hw & Hf). repeat split; cbn [with_results heap globals].
  - exact Hg.
  - apply list_lookup_insert_eq. eapply lookup_lt_Some; exact Hw.
  - rewrite list_lookup_insert_ne by congruence. exact Hf.
Qed.

Lemma store_result_with_results st w f r0 r args res :
  heap st !! w = Some (LookupF f r0) ->
  store_result w args res (with_results st w f r)
    = with_results st w f (<[args := res]> r).
Proof.
  intros H. unfold store_result, with_results. cbn [heap globals].
  rewrite list_lookup_insert_eq by (eapply lookup_lt_Some; exact H).
  now rewrite list_insert_insert_eq.
Qed.

Lemma store_result_here st w f r args res :
  heap st !! w = Some (LookupF f r) ->
  store_result w args res st = with_results st w f (<[args := res]> r).
Proof. intros H. unfold store_result, with_results. now rewrite H. Qed.

Lemma fib_cache_insert (r : dict) (z : Z) :
  fib_cache r ->
  (2 <= z ->
   is_Some (r !! [VInt (z - 1)]) /\ is_Some (r !! [VInt (z - 2)])) ->
  fib_cache (<[[VInt z] := VInt (fib_value z)]> r).
Proof.
  intros [Hval Hclo] Hz. split.
  - intros k v. destruct (decide ([VInt z] = k)) as [<- | Hne].
    + rewrite lookup_insert_eq. intros [= <-]. eauto.
    + rewrite lookup_insert_ne by exact Hne. apply Hval.
  - intros j Hj Hsome.
    assert (Hpre : is_Some (r !! [VInt (j - 1)]) /\
                   is_Some (r !! [VInt (j - 2)])).
    { destruct (decide (z = j)) as [<- | Hne]; [ now apply Hz | ].
      rewrite lookup_insert_ne in Hsome by congruence. now apply Hclo. }
    destruct Hpre as [H1 H2].
    split; apply lookup_insert_is_Some'; now right.
Qed.

(** The body of [fib] for [z >= 2], given what its two calls return. *)
Lemma fib_code_runs fuel st st1 st2 w (z a b : Z) :
  2 <= z ->
  globals st !! "fib" = Some (VFun w) ->
  call fuel (VFun w) [VInt (z - 1)] [] st = Ok (VInt a) st1 ->
  globals st1 !! "fib" = Some (VFun w) ->
  call fuel (VFun w) [VInt (z - 2)] [] st1 = Ok (VInt b) st2 ->
  exec (call fuel) (fib_code [VInt z]) st = Ok (VInt (a + b)) st2.
Proof.
  intros Hz Hg H1 Hg1 H2. unfold fib_code.
  replace (z <? 2) with false by (symmetry; apply Z.ltb_ge; lia).
  cbn [exec]. rewrite Hg. cbn [exec]. rewrite H1.
  cbn [exec]. rewrite Hg1. cbn [exec]. rewrite H2. reflexivity.
Qed.

Lemma memoized_fib_call (n : nat) :
  forall (z : Z) (st : state) (w fd : nat) (results : dict) (fuel : nat),
    Z.to_nat z = n ->
    fib_bound st w fd results ->
    fib_cache results ->
    (2 * n + 2 <= fuel)%nat ->
    exists results' : dict,
      call fuel (VFun w) [VInt z] [] st
        = Ok (VInt (fib_value z)) (with_results st w (VFun fd) results') /\
      fib_cache results' /\
      (forall k v, results !! k = Some v -> results' !! k = Some v) /\
      results' !! [VInt z] = Some (VInt (fib_value z)) /\
      (forall k, is_Some (results' !! k) ->
         is_Some (results !! k) \/
         exists j : Z, k = [VInt j] /\ j <= z /\ (0 <= j \/ j = z)).
Proof.
  induction n as [n IH] using lt_wf_ind.
  intros z st w fd results fuel Hn Hb Hc Hfuel.
  destruct fuel as [ | [ | fuel ] ]; [ lia | lia | ].
  pose proof Hb as (Hg & Hw & Hf).
  destruct (results !! [VInt z]) as [ v | ] eqn:E.
  { (* served from the dictionary *)
    destruct Hc as [Hval Hclo].
    destruct (Hval _ _ E) as (j & [= <-] & ->).
    exists results.
    rewrite (call_lookup_f_hit _ _ _ _ _ [VInt z] _ Hw eq_refl E)
      by discriminate.
    rewrite with_results_same by exact Hw.
    split; [ reflexivity | ]. split; [ now split | ].
    split; [ auto | ]. split; [ exact E | ]. intros k Hk. now left. }
  rewrite (call_lookup_f_miss _ _ _ _ _ [VInt z] Hw eq_refl)
    by now rewrite E.
  rewrite (call_def _ _ _ _ _ [VInt z] [] [VInt z] Hf eq_refl).
  destruct (decide (z < 2)) as [Hz | Hz].
  { (* the base of the recursion *)
    unfold fib_code.
    replace (z <? 2) with true by (symmetry; apply Z.ltb_lt; lia).
    cbn [exec]. rewrite (store_result_here _ _ _ _ _ _ Hw).
    rewrite <- (fib_value_small z Hz).
    exists (<[[VInt z] := VInt (fib_value z)]> results).
    split; [ reflexivity | ].
    split; [ apply fib_cache_insert; [ exact Hc | lia ] | ].
    split.
    { intros k v Hk. rewrite lookup_insert_ne by congruence. exact Hk. }
    split; [ apply lookup_insert_eq | ].
    intros k Hk. destruct (decide ([VInt z] = k)) as [<- | Hne].
    - right. exists z. split; [ reflexivity | lia ].
    - left. now rewrite lookup_insert_ne in Hk by exact Hne. }
  (* the two recursive calls *)
  destruct (IH (Z.to_nat (z - 1)) ltac:(lia) (z - 1) st w fd results fuel
              eq_refl Hb Hc ltac:(lia))
    as (r1 & Hcall1 & Hc1 & Hkeep1 & Hin1 & Hnew1).
  pose proof (fib_bound_with_results st w fd results r1 Hb) as Hb1.
  destruct (IH (Z.to_nat (z - 2)) ltac:(lia) (z - 2) _ w fd r1 fuel
              eq_refl Hb1 Hc1 ltac:(lia))
    as (r2 & Hcall2 & Hc2 & Hkeep2 & Hin2 & Hnew2).
  rewrite with_results_twice in Hcall2.
  rewrite (fib_code_runs fuel st _ _ w z _ _ ltac:(lia) Hg Hcall1
             (proj1 Hb1) Hcall2).
  rewrite (store_result_with_results _ _ _ _ _ _ _ Hw).
  rewrite <- fib_value_step by lia.
  exists (<[[VInt z] := VInt (fib_value z)]> r2).
  split; [ reflexivity | ].
  split; [ apply fib_cache_insert; [ exact Hc2 | ]; intros _;
           split; eauto | ].
  split.
  { intros k v Hk. rewrite lookup_insert_ne by congruence. auto. }
  split; [ apply lookup_insert_eq | ].
  intros k Hk. destruct (decide ([VInt z] = k)) as [<- | Hne].
  - right. exists z. split; [ reflexivity | lia ].
  - rewrite lookup_insert_ne in Hk by exact Hne.
    destruct (Hnew2 _ Hk) as [Hk1 | (j & -> & Hj)];
      [ | right; exists j; split; [ reflexivity | lia ] ].
    destruct (Hnew1 _ Hk1) as [Hk0 | (j & -> & Hj)];
      [ now left | right; exists j; split; [ reflexivity | lia ] ].
Qed.

(** The memoized [fib] returns what the recursion of [fib] computes, for
    every integer argument and from every dictionary that earlier calls
    of it have left; the closure keeps all its entries and gains one for
    the argument.  The nesting of calls is at most twice the argument
    plus two. *)
Theorem memoized_fib_returns_fib (z : Z) (st : state) (w fd : nat)
    (results : dict) (fuel : nat) :
  fib_bound st w fd results ->
  fib_cache results ->
  (2 * Z.to_nat z + 2 <= fuel)%nat ->
  exists results' : dict,
    call_name fuel "fib" [VInt z] [] st
      = Ok (VInt (fib_value z)) (with_results st w (VFun fd) results') /\
    fib_cache results' /\
    (forall k v, results !! k = Some v -> results' !! k = Some v) /\
    results' !! [VInt z] = Some (VInt (fib_value z)).
Proof.
  intros Hb Hc Hfuel.
  destruct (memoized_fib_call (Z.to_nat z) z st w fd results fuel eq_refl
              Hb Hc Hfuel) as (r & Hcall & Hc' & Hkeep & Hin & _).
  exists r. unfold call_name. rewrite (proj1 Hb). auto.
Qed.

Lemma fib_cache_empty : fib_cache ∅.
Proof.
  split.
  - intros k v H. rewrite lookup_empty in H. discriminate.
  - intros j _ [v H]. rewrite lookup_empty in H. discriminate.
Qed.

Lemma fib_memoized_bound : fib_bound fib_memoized (made 0) fib_def ∅.
Proof. repeat split. Qed.

Lemma memoized_fib_returns_fib_witness :
  exists results' : dict,
    call_name 22 "fib" [VInt 10] [] fib_memoized
      = Ok (VInt (fib_value 10))
           (with_results fib_memoized (made 0) (VFun fib_def) results') /\
    fib_cache results' /\
    (forall k v, (∅ : dict) !! k = Some v -> results' !! k = Some v) /\
    results' !! [VInt 10] = Some (VInt (fib_value 10)).
Proof.
  apply (memoized_fib_returns_fib 10 fib_memoized (made 0) fib_def ∅ 22).
  - exact fib_memoized_bound.
  - exact fib_cache_empty.
  - simpl. lia.
Defined.

(** The function before it is memoized computes the same values, and
    changes nothing: [memoize] gives the same results as the original. *)
Theorem unmemoized_fib_returns_fib (z : Z) (st : state) (fd : nat)
    (fuel : nat) :
  fib_unmemoized st fd ->
  (Z.to_nat z + 1 <= fuel)%nat ->
  call_name fuel "fib" [VInt z] [] st = Ok (VInt (fib_value z)) st.
Proof.
  intros [Hg Hf]. unfold call_name. rewrite Hg.
  remember (Z.to_nat z) as n eqn:Hn. revert z fuel Hn.
  induction n as [n IH] using lt_wf_ind. intros z fuel Hn Hfuel.
  destruct fuel as [ | fuel ]; [ lia | ].
  rewrite (call_def _ _ _ _ _ [VInt z] [] [VInt z] Hf eq_refl).
  destruct (decide (z < 2)) as [Hz | Hz].
  - unfold fib_code.
    replace (z <? 2) with true by (symmetry; apply Z.ltb_lt; lia).
    cbn [exec]. now rewrite fib_value_small.
  - rewrite (fib_value_step z) by lia.
    apply (fib_code_runs fuel st st st fd z); try assumption; try lia.
    + apply (IH (Z.to_nat (z - 1))); lia.
    + apply (IH (Z.to_nat (z - 2))); lia.
Qed.

Lemma unmemoized_fib_returns_fib_witness :
  call_name 11 "fib" [VInt 10] [] module = Ok (VInt (fib_value 10)) module.
Proof.
  apply (unmemoized_fib_returns_fib 10 module fib_def 11).
  - split; reflexivity.
  - simpl. lia.
Defined.

Lemma fib_cache_down (r : dict) (z : Z) :
  fib_cache r -> 2 <= z -> is_Some (r !! [VInt z]) ->
  forall j : Z, 0 <= j <= z -> is_Some (r !! [VInt j]).
Proof.
  intros [_ Hclo] Hz Hsome.
  assert (H : forall m : nat, Z.of_nat m <= z - 1 ->
            is_Some (r !! [VInt (z - Z.of_nat m)]) /\
            is_Some (r !! [VInt (z - Z.of_nat m - 1)])).
  { induction m as [ | m IH ]; intros Hm.
    - replace (z - Z.of_nat 0) with z by lia.
      split; [ exact Hsome | ]. exact (proj1 (Hclo z Hz Hsome)).
    - destruct (IH ltac:(lia)) as [H1 H2].
      replace (z - Z.of_nat (S m)) with (z - Z.of_nat m - 1) by lia.
      split; [ exact H2 | ].
      replace (z - Z.of_nat m - 1 - 1) with (z - Z.of_nat m - 2) by lia.
      exact (proj2 (Hclo (z - Z.of_nat m) ltac:(lia) H1)). }
  intros j Hj. destruct (decide (j = 0)) as [-> | Hj0].
  - destruct (H (Z.to_nat (z - 1)) ltac:(lia)) as [_ H2].
    now replace (z - Z.of_nat (Z.to_nat (z - 1)) - 1) with 0 in H2 by lia.
  - destruct (H (Z.to_nat (z - j)) ltac:(lia)) as [H1 _].
    now replace (z - Z.of_nat (Z.to_nat (z - j))) with j in H1 by lia.
Qed.

Lemma fib_table_lookup (z : Z) (k : list value) (v : value) :
  fib_table z !! k = Some v <->
  exists j : Z, 0 <= j <= z /\ k = [VInt j] /\ v = VInt (fib_value j).
Proof.
  unfold fib_table. rewrite <- elem_of_list_to_map.
  - rewrite list_elem_of_fmap. setoid_rewrite elem_of_seqZ.
    split.
    + intros (j & [= -> ->] & Hj). exists j. split; [ lia | auto ].
    + intros (j & Hj & -> & ->). exists j. split; [ reflexivity | lia ].
  - rewrite <- list_fmap_compose.
    apply NoDup_fmap_2; [ | apply NoDup_seqZ ].
    intros a b [= H]. exact H.
Qed.

Lemma fib_table_size (z : Z) : 0 <= z -> size (fib_table z) = Z.to_nat (z + 1).
Proof.
  intros Hz. unfold fib_table. rewrite map_size_list_to_map.
  - now rewrite length_fmap, length_seqZ.
  - rewrite <- list_fmap_compose.
    apply NoDup_fmap_2; [ | apply NoDup_seqZ ].
    intros a b [= H]. exact H.
Qed.

Lemma memoized_fib_fresh (z : Z) (st : state) (w fd : nat)
    (fuel : nat) :
  fib_bound st w fd ∅ ->
  2 <= z ->
  (2 * Z.to_nat z + 2 <= fuel)%nat ->
  call_name fuel "fib" [VInt z] [] st
    = Ok (VInt (fib_value z)) (with_results st w (VFun fd) (fib_table z)) /\
  size (fib_table z) = Z.to_nat (z + 1).
Proof.
  intros Hb Hz Hfuel. split; [ | apply fib_table_size; lia ].
  destruct (memoized_fib_call (Z.to_nat z) z st w fd ∅ fuel eq_refl
              Hb fib_cache_empty Hfuel) as (r & Hcall & Hc & _ & Hin & Hnew).
  unfold call_name. rewrite (proj1 Hb), Hcall. do 2 f_equal.
  apply map_eq. intros k. apply option_eq. intros v.
  rewrite fib_table_lookup. split.
  - intros Hk. destruct (proj1 Hc _ _ Hk) as (j & -> & ->).
    exists j. split; [ | auto ].
    destruct (Hnew [VInt j] ltac:(eauto)) as [[? H0] | (j' & [= <-] & Hj)];
      [ rewrite lookup_empty in H0; discriminate | lia ].
  - intros (j & Hj & -> & ->).
    destruct (fib_cache_down r z Hc Hz ltac:(eauto) j Hj) as [v Hv].
    destruct (proj1 Hc _ _ Hv) as (j' & [= <-] & ->). exact Hv.
Qed.

(** From an empty dictionary, [fib(z)] for [z >= 2] leaves exactly the
    [z + 1] entries for 0, 1, ..., [z], each with the value of [fib]
    there. *)
Theorem memoized_fib_fills_table (z : Z) (st : state) (w fd : nat)
    (fuel : nat) :
  fib_bound st w fd ∅ ->
  2 <= z ->
  (2 * Z.to_nat z + 2 <= fuel)%nat ->
  call_name fuel "fib" [VInt z] [] st
    = Ok (VInt (fib_value z)) (with_results st w (VFun fd) (fib_table z)) /\
  size (fib_table z) = Z.to_nat (z + 1).
Proof. exact (memoized_fib_fresh z st w fd fuel). Qed.

Lemma memoized_fib_fills_table_witness :
  call_name 22 "fib" [VInt 10] [] fib_memoized
    = Ok (VInt (fib_value 10))
         (with_results fib_memoized (made 0) (VFun fib_def) (fib_table 10)) /\
  size (fib_table 10) = Z.to_nat (10 + 1).
Proof.
  apply (memoized_fib_fills_table 10 fib_memoized (made 0) fib_def 22).
  - exact fib_memoized_bound.
  - lia.
  - simpl. lia.
Defined.

(** What the module prints: [fib(200)] is
    453973694165307953197296969697410619233826, and the memoized [fib]
    then holds 201 cached results. *)
Theorem fib_200 :
  exists results : dict,
    (forall n : nat,
       call_name (402 + n) "fib" [VInt 200] [] fib_memoized
         = Ok (VInt 453973694165307953197296969697410619233826)
              (with_results fib_memoized (made 0) (VFun fib_def) results)) /\
    size results = 201%nat.
Proof.
  exists (fib_table 200). split.
  - intros n.
    destruct (memoized_fib_fresh 200 fib_memoized (made 0) fib_def
                (402 + n) fib_memoized_bound ltac:(lia) ltac:(lia))
      as [H _].
    assert (E : fib_value 200 = 453973694165307953197296969697410619233826)
      by (vm_compute; reflexivity).
    now rewrite H, E.
  - rewrite fib_table_size by lia. reflexivity.
Qed.

(** * The memoized [collatz] *)

Lemma collatz_memoized_run :
  rebind 3 "collatz" "memoize" "collatz" collatz_defined
    = Ok tt collatz_memoized.
Proof. reflexivity. Qed.

Lemma reaches_one_positive (z : Z) (s : nat) : reaches_one z s -> 1 <= z.
Proof.
  induction 1 as [ | z s Hne Heven _ IH | z s Hne Hodd _ IH ]; [ lia | | ].
  - pose proof (Z.div_mod z 2 ltac:(lia)). lia.
  - destruct (decide (z = 0)) as [-> | H0]; [ now elim Hodd | lia ].
Qed.

Lemma reaches_one_unique (z : Z) (s s' : nat) :
  reaches_one z s -> reaches_one z s' -> s = s'.
Proof.
  intros H. revert s'.
  induction H as [ | z s Hne Heven _ IH | z s Hne Hodd _ IH ];
    intros s' H'; inversion H'; subst; try congruence; f_equal; auto.
Qed.

(** The body of [collatz] away from 1, given what its call returns. *)
Lemma collatz_code_runs fuel st st1 w (z : Z) (s : nat) :
  z <> 1 ->
  globals st !! "collatz" = Some (VFun w) ->
  call fuel (VFun w) [VInt (if z mod 2 =? 0 then z / 2 else 3 * z + 1)] [] st
    = Ok (VInt (Z.of_nat s)) st1 ->
  exec (call fuel) (collatz_code [VInt z]) st
    = Ok (VInt (Z.of_nat (S s))) st1.
Proof.
  intros Hz Hg H. unfold collatz_code.
  replace (z =? 1) with false by (symmetry; apply Z.eqb_neq; lia).
  destruct (z mod 2 =? 0);
    cbn [exec]; rewrite Hg; cbn [exec]; rewrite H; cbn [py_add exec];
    do 2 f_equal; lia.
Qed.

Lemma collatz_next (z : Z) (s : nat) :
  reaches_one z (S s) ->
  reaches_one (if z mod 2 =? 0 then z / 2 else 3 * z + 1) s /\ z <> 1.
Proof.
  intros H. inversion H; subst.
  - replace (z mod 2 =? 0) with true by (symmetry; now apply Z.eqb_eq).
    now split.
  - replace (z mod 2 =? 0) with false by (symmetry; now apply Z.eqb_neq).
    now split.
Qed.

Lemma collatz_cache_insert (r : dict) (z : Z) (s : nat) :
  collatz_cache r -> reaches_one z s ->
  collatz_cache (<[[VInt z] := VInt (Z.of_nat s)]> r).
Proof.
  intros Hc Hz k v. destruct (decide ([VInt z] = k)) as [<- | Hne].
  - rewrite lookup_insert_eq. intros [= <-]. eauto.
  - rewrite lookup_insert_ne by exact Hne. apply Hc.
Qed.

Lemma memoized_collatz_call (z : Z) (s : nat) (st : state)
    (w cd : nat) (results : dict) (fuel : nat) :
  collatz_bound st w cd results ->
  collatz_cache results ->
  reaches_one z s ->
  (2 * s + 2 <= fuel)%nat ->
  exists results' : dict,
    call_name fuel "collatz" [VInt z] [] st
      = Ok (VInt (Z.of_nat s)) (with_results st w (VFun cd) results') /\
    collatz_cache results' /\
    (forall k v, results !! k = Some v -> results' !! k = Some v) /\
    results' !! [VInt z] = Some (VInt (Z.of_nat s)).
Proof.
  intros Hb Hc Hz Hfuel. unfold call_name. rewrite (proj1 Hb).
  revert z st results fuel Hb Hc Hz Hfuel.
  induction s as [ | s IH ]; intros z st results fuel Hb Hc Hz Hfuel;
    (destruct fuel as [ | [ | fuel ] ]; [ lia | lia | ]);
    pose proof Hb as (Hg & Hw & Hf);
    (destruct (results !! [VInt z]) as [ v | ] eqn:E;
     [ destruct (Hc _ _ E) as (z' & s' & [= <-] & -> & Hz');
       rewrite (reaches_one_unique _ _ _ Hz' Hz) in *;
       exists results;
       rewrite (call_lookup_f_hit _ _ _ _ _ [VInt z] _ Hw eq_refl E)
         by discriminate;
       rewrite with_results_same by exact Hw; auto
     | ]);
    rewrite (call_lookup_f_miss _ _ _ _ _ [VInt z] Hw eq_refl)
      by (now rewrite E);
    rewrite (call_def _ _ _ _ _ [VInt z] [] [VInt z] Hf eq_refl).
  - inversion Hz; subst. cbn [collatz_code]. cbn [exec Z.eqb Pos.eqb].
    rewrite (store_result_here _ _ _ _ _ _ Hw).
    exists (<[[VInt 1] := VInt 0]> results).
    split; [ reflexivity | ].
    split; [ apply (collatz_cache_insert results 1 0 Hc Hz) | ].
    split; [ | apply lookup_insert_eq ].
    intros k v Hk. rewrite lookup_insert_ne by congruence. exact Hk.
  - destruct (collatz_next z s Hz) as (Hnext & Hne).
    destruct (IH _ st results fuel Hb Hc Hnext ltac:(lia))
      as (r1 & Hcall1 & Hc1 & Hkeep1 & _).
    rewrite (collatz_code_runs fuel st _ w z s Hne Hg Hcall1).
    rewrite (store_result_with_results _ _ _ _ _ _ _ Hw).
    exists (<[[VInt z] := VInt (Z.of_nat (S s))]> r1).
    split; [ reflexivity | ].
    split; [ now apply collatz_cache_insert | ].
    split; [ | apply lookup_insert_eq ].
    intros k v Hk. rewrite lookup_insert_ne by congruence. auto.
Qed.

(** When the Collatz sequence from [z] reaches 1 after [s] steps, the
    memoized [collatz(z)] returns [s], from every dictionary that earlier
    calls of it have left; the closure keeps all its entries and gains
    one for [z]. *)
Theorem memoized_collatz_counts_steps (z : Z) (s : nat) (st : state)
    (w cd : nat) (results : dict) (fuel : nat) :
  collatz_bound st w cd results ->
  collatz_cache results ->
  reaches_one z s ->
  (2 * s + 2 <= fuel)%nat ->
  exists results' : dict,
    call_name fuel "collatz" [VInt z] [] st
      = Ok (VInt (Z.of_nat s)) (with_results st w (VFun cd) results') /\
    collatz_cache results' /\
    (forall k v, results !! k = Some v -> results' !! k = Some v) /\
    results' !! [VInt z] = Some (VInt (Z.of_nat s)).
Proof. exact (memoized_collatz_call z s st w cd results fuel). Qed.

Lemma collatz_memoized_bound :
  collatz_bound collatz_memoized (made 2) (made 1) ∅.
Proof. repeat split. Qed.

Lemma collatz_cache_empty : collatz_cache ∅.
Proof. intros k v H. rewrite lookup_empty in H. discriminate. Qed.

Lemma reaches_one_6 : reaches_one 6 8.
Proof.
  repeat first
    [ exact reaches_one_now
    | apply reaches_one_even; [ discriminate | reflexivity | vm_compute ]
    | apply reaches_one_odd; [ discriminate | discriminate | vm_compute ] ].
Qed.

Lemma memoized_collatz_counts_steps_witness :
  exists results' : dict,
    call_name 18 "collatz" [VInt 6] [] collatz_memoized
      = Ok (VInt (Z.of_nat 8))
           (with_results collatz_memoized (made 2) (VFun (made 1)) results') /\
    collatz_cache results' /\
    (forall k v, (∅ : dict) !! k = Some v -> results' !! k = Some v) /\
    results' !! [VInt 6] = Some (VInt (Z.of_nat 8)).
Proof.
  apply (memoized_collatz_counts_steps 6 8 collatz_memoized (made 2) (made 1)
           ∅ 18).
  - exact collatz_memoized_bound.
  - exact collatz_cache_empty.
  - exact reaches_one_6.
  - simpl. lia.
Defined.

Lemma reaches_one_power (k : nat) : reaches_one (2 ^ Z.of_nat k) k.
Proof.
  induction k as [ | k IH ]; [ exact reaches_one_now | ].
  assert (E : 2 ^ Z.of_nat (S k) = 2 * 2 ^ Z.of_nat k).
  { rewrite Nat2Z.inj_succ. apply Z.pow_succ_r. lia. }
  assert (Hpos : 0 < 2 ^ Z.of_nat k) by (apply Z.pow_pos_nonneg; lia).
  apply reaches_one_even.
  - lia.
  - rewrite E, Z.mul_comm. apply Z.mod_mul. lia.
  - rewrite E, Z.mul_comm, Z.div_mul by lia. exact IH.
Qed.

(** [collatz(2^k)] is [k]. *)
Theorem memoized_collatz_power_of_two (k : nat) (st : state) (w cd : nat)
    (results : dict) (fuel : nat) :
  collatz_bound st w cd results ->
  collatz_cache results ->
  (2 * k + 2 <= fuel)%nat ->
  exists st' : state,
    call_name fuel "collatz" [VInt (2 ^ Z.of_nat k)] [] st
      = Ok (VInt (Z.of_nat k)) st'.
Proof.
  intros Hb Hc Hfuel.
  destruct (memoized_collatz_call _ k st w cd results fuel Hb Hc
              (reaches_one_power k) Hfuel) as (r & H & _).
  eauto.
Qed.

Lemma memoized_collatz_power_of_two_witness :
  exists st' : state,
    call_name 12 "collatz" [VInt (2 ^ Z.of_nat 5)] [] collatz_memoized
      = Ok (VInt (Z.of_nat 5)) st'.
Proof.
  apply (memoized_collatz_power_of_two 5 collatz_memoized (made 2) (made 1)
           ∅ 12).
  - exact collatz_memoized_bound.
  - exact collatz_cache_empty.
  - simpl. lia.
Defined.

(** For an argument that is zero or negative the recursion of the
    memoized [collatz] never comes to an end: the sequence stays at or
    below zero and never reaches 1, nothing is stored on the way down, and
    no nesting depth is enough for the call to return.  (The recursion
    limit of the interpreter, which ends such a call with an exception,
    is outside the model.) *)
Theorem memoized_collatz_never_returns (z : Z) (st : state) (w cd : nat)
    (results : dict) (fuel : nat) :
  collatz_bound st w cd results ->
  collatz_cache results ->
  z <= 0 ->
  call_name fuel "collatz" [VInt z] [] st = OutOfFuel.
Proof.
  intros Hb Hc Hz. pose proof Hb as (Hg & Hw & Hf).
  unfold call_name. rewrite Hg. revert z Hz.
  induction fuel as [fuel IH] using lt_wf_ind. intros z Hz.
  destruct fuel as [ | fuel ]; [ reflexivity | ].
  assert (E : results !! [VInt z] = None).
  { destruct (results !! [VInt z]) as [ v | ] eqn:E; [ | reflexivity ].
    destruct (Hc _ _ E) as (z' & s & [= <-] & _ & Hr).
    apply reaches_one_positive in Hr. lia. }
  rewrite (call_lookup_f_miss _ _ _ _ _ [VInt z] Hw eq_refl)
    by (now rewrite E).
  destruct fuel as [ | fuel ]; [ reflexivity | ].
  rewrite (call_def _ _ _ _ _ [VInt z] [] [VInt z] Hf eq_refl).
  unfold collatz_code.
  replace (z =? 1) with false by (symmetry; apply Z.eqb_neq; lia).
  destruct (z mod 2 =? 0) eqn:Hpar; cbn [exec]; rewrite Hg; cbn [exec].
  - rewrite (IH fuel ltac:(lia) (z / 2)); [ reflexivity | ].
    apply Z.div_le_upper_bound; lia.
  - rewrite (IH fuel ltac:(lia) (3 * z + 1)); [ reflexivity | ].
    apply Z.eqb_neq in Hpar.
    destruct (decide (z = 0)) as [-> | H0]; [ now elim Hpar | lia ].
Qed.

Lemma memoized_collatz_never_returns_witness :
  call_name 1000 "collatz" [VInt 0] [] collatz_memoized = OutOfFuel.
Proof.
  apply (memoized_collatz_never_returns 0 collatz_memoized (made 2) (made 1)
           ∅ 1000).
  - exact collatz_memoized_bound.
  - exact collatz_cache_empty.
  - lia.
Defined.

(** * The memoized Q sequence and the table *)

Lemma hof_q_memoized_run :
  rebind 2 "hof_q" "memoize" "hof_q" hof_q_defined = Ok tt hof_q_memoized.
Proof. reflexivity. Qed.

Lemma hof_agree_mono (fuel fuel' : nat) (n : Z) :
  (fuel <= fuel')%nat -> hof_agree fuel n = true -> hof_agree fuel' n = true.
Proof.
  unfold hof_agree. intros Hle H.
  destruct (call_name fuel "hof_q" [VInt n] [] hof_q_memoized)
    as [ v st' | | ] eqn:E; try discriminate.
  now rewrite (call_name_mono fuel fuel' _ _ _ _ _ Hle E).
Qed.

(** For every [n] from 1 to 100 the memoized recursion [hof_q(n)] and the
    table [hof_qt(n)] return, and return the same number. *)
Theorem hof_q_agrees_with_table (n : Z) (k : nat) :
  1 <= n <= 100 ->
  exists (q : Z) (st' : state),
    call_name (400 + k) "hof_q" [VInt n] [] hof_q_memoized
      = Ok (VInt q) st' /\
    (hof_qt n Q_module).1 = Some q.
Proof.
  intros Hn.
  assert (Hall : forallb (hof_agree 400) (seqZ 1 100) = true)
    by (vm_compute; reflexivity).
  rewrite forallb_forall in Hall.
  assert (H : hof_agree (400 + k) n = true).
  { apply (hof_agree_mono 400); [ lia | ]. apply Hall.
    apply list_elem_of_In, elem_of_seqZ. lia. }
  unfold hof_agree in H.
  destruct (call_name (400 + k) "hof_q" [VInt n] [] hof_q_memoized)
    as [ [ | a | | | | ] st' | | ]; try discriminate.
  destruct (hof_qt n Q_module).1 as [ b | ]; try discriminate.
  apply Z.eqb_eq in H as ->. eauto.
Qed.

Lemma hof_q_agrees_with_table_witness :
  exists (q : Z) (st' : state),
    call_name (400 + 0) "hof_q" [VInt 100] [] hof_q_memoized
      = Ok (VInt q) st' /\
    (hof_qt 100 Q_module).1 = Some q.
Proof. apply (hof_q_agrees_with_table 100 0). lia. Defined.

(** * Negated predicates *)

(** [is_even], made by [negate] from [is_odd], holds exactly of the
    multiples of two, the negative ones included, and the [is_positive]
    that [negate] makes from [x <= 0] is the [is_positive] that the module
    defines first. *)
Theorem negate_gives_the_complement (x : Z) :
  (is_even x = true <-> exists k : Z, x = 2 * k) /\
  (is_even x = negb (is_odd x)) /\
  is_positive_negated x = is_positive x.
Proof.
  unfold is_even, is_positive_negated, is_positive, negate, is_odd.
  split; [ | split; [ reflexivity | ] ].
  - rewrite negb_involutive, Z.eqb_eq. split.
    + intros H. exists (x / 2).
      pose proof (Z.div_mod x 2 ltac:(lia)). lia.
    + intros (k & ->). rewrite Z.mul_comm. apply Z.mod_mul. lia.
  - destruct (Z.leb_spec x 0), (Z.ltb_spec 0 x); simpl; try reflexivity; lia.
Qed.

(** * [memoize] on something that cannot be called *)

(** [memoize] does not look at its argument: given a value that is not a
    function object it still returns a closure, and only a call of that
    closure raises the [TypeError]; nothing is stored by the failed
    call. *)
Theorem memoize_of_non_callable (n : nat) (st : state) (m : nat)
    (f : value) (args : list value) :
  heap st !! m = Some Memoize ->
  (forall id, f <> VFun id) ->
  forallb hashable args = true ->
  exists (g : nat) (st1 : state),
    call (S n) (VFun m) [f] [] st = Ok (VFun g) st1 /\
    call (S (S n)) (VFun g) args [] st1 = Exn TypeError_not_callable st1.
Proof.
  intros Hm Hf Hh. eexists _, _.
  split; [ apply call_memoize; exact Hm | ].
  erewrite call_lookup_f_miss;
    [ | cbn [heap]; now apply list_lookup_middle | exact Hh
      | now rewrite lookup_empty ].
  destruct f as [ | z | s | xs | xs | id ]; try reflexivity.
  now elim (Hf id).
Qed.

Lemma memoize_of_non_callable_witness :
  exists (g : nat) (st1 : state),
    call 1 (VFun memoize_def) [VInt 5] [] module = Ok (VFun g) st1 /\
    call 2 (VFun g) [VInt 0] [] st1 = Exn TypeError_not_callable st1.
Proof.
  apply (memoize_of_non_callable 0 module memoize_def (VInt 5) [VInt 0]).
  - reflexivity.
  - discriminate.
  - reflexivity.
Defined.

(** * What every call keeps of the dictionaries *)

(** Entries other than [None] through the steps of a call. *)
Lemma keeps_entries_refl (st : state) : keeps_entries st st.
Proof. intros id f results k v H Hk _. eauto. Qed.

Lemma keeps_entries_trans (st1 st2 st3 : state) :
  keeps_entries st1 st2 -> keeps_entries st2 st3 -> keeps_entries st1 st3.
Proof.
  intros H12 H23 id f results k v H Hk Hv.
  destruct (H12 _ _ _ _ _ H Hk Hv) as (r2 & H2 & Hk2). eauto.
Qed.

Lemma keeps_entries_alloc (o : fobj) (st : state) :
  keeps_entries st (alloc o st).2.
Proof.
  intros id f results k v H Hk _. exists results. simpl.
  split; [ | exact Hk ].
  rewrite lookup_app_l by (eapply lookup_lt_Some; exact H). exact H.
Qed.

Lemma keeps_entries_increment (c : nat) (st : state) :
  keeps_entries st (increment c st).
Proof.
  unfold increment.
  destruct (heap st !! c) as [ [ | | | | f0 count ] | ] eqn:E;
    try apply keeps_entries_refl.
  intros id f results k v H Hk _. exists results. cbn [heap].
  split; [ | exact Hk ].
  rewrite list_lookup_insert_ne by congruence. exact H.
Qed.

(** The assignment [results[args] = res] at the end of a miss: it writes
    the entry that the miss found absent or [None], so no entry that was
    not [None] when the call began is changed by it. *)
Lemma keeps_entries_store (st st' : state) (g : nat) (f : value)
    (results : dict) (args : list value) (res : value) :
  heap st !! g = Some (LookupF f results) ->
  default VNone (results !! args) = VNone ->
  keeps_entries st st' ->
  keeps_entries st (store_result g args res st').
Proof.
  intros Hg Hmiss Hkeep id f0 r0 k v H Hk Hv.
  destruct (Hkeep _ _ _ _ _ H Hk Hv) as (r' & H' & Hk').
  unfold store_result.
  destruct (heap st' !! g) as [ [ | | f2 r2 | | ] | ] eqn:E; eauto.
  cbn [heap]. destruct (decide (g = id)) as [-> | Hne].
  - rewrite H in Hg. injection Hg as -> ->.
    rewrite H' in E. injection E as <- <-.
    exists (<[args := res]> r').
    split; [ apply list_lookup_insert_eq; eapply lookup_lt_Some; exact H' | ].
    destruct (decide (args = k)) as [-> | Hk0].
    + rewrite Hk in Hmiss. simpl in Hmiss. congruence.
    + now rewrite lookup_insert_ne.
  - exists r'. rewrite list_lookup_insert_ne by exact Hne. auto.
Qed.

Lemma exec_keeps_entries
    (callf : value -> list value -> kwargs -> state -> outcome value) :
  (forall fn args kw st, ends_keeping st (callf fn args kw st)) ->
  forall b st, ends_keeping st (exec callf b st).
Proof.
  intros Hc b.
  induction b as [ v | e | name k IH | fn args kw k IH ]; simpl; intros st.
  - apply keeps_entries_refl.
  - apply keeps_entries_refl.
  - destruct (globals st !! name); [ apply IH | apply keeps_entries_refl ].
  - specialize (Hc fn args kw st).
    destruct (callf fn args kw st) as [ v st' | e st' | ]; simpl in *;
      [ | exact Hc | exact I ].
    specialize (IH v st').
    destruct (exec callf (k v) st') as [ v' st'' | e st'' | ]; simpl in *;
      [ | | exact I ]; eapply keeps_entries_trans; eassumption.
Qed.

Lemma call_ends_keeping (fuel : nat) fn args kw st :
  ends_keeping st (call fuel fn args kw st).
Proof.
  revert fn args kw st.
  induction fuel as [ | fuel IH ]; intros fn args kw st; simpl;
    [ exact I | ].
  destruct fn as [ | | | | | id ]; try apply keeps_entries_refl.
  destruct (heap st !! id) as [ [ params code | | f results | | f count ] | ]
    eqn:E; try apply keeps_entries_refl.
  - destruct (bind_params params args kw); [ | apply keeps_entries_refl ].
    apply exec_keeps_entries. exact IH.
  - match goal with
    | |- ends_keeping _ (match ?b with _ => _ end) =>
        destruct b as [ [ | f [ | ] ] | ]
    end; try apply keeps_entries_refl.
    apply (keeps_entries_alloc (LookupF f ∅) st).
  - destruct kw; [ | apply keeps_entries_refl ].
    destruct (forallb hashable args); [ | apply keeps_entries_refl ].
    destruct (default VNone (results !! args)) eqn:Emiss;
      try apply keeps_entries_refl.
    specialize (IH f args [] st).
    destruct (call fuel f args [] st) as [ res st' | e st' | ]; simpl in *;
      [ | exact IH | exact I ].
    eapply keeps_entries_store; eassumption.
  - match goal with
    | |- ends_keeping _ (match ?b with _ => _ end) =>
        destruct b as [ [ | f [ | ] ] | ]
    end; try apply keeps_entries_refl.
    apply (keeps_entries_alloc (Cf f 0) st).
  - specialize (IH f args kw (increment id st)).
    destruct (call fuel f args kw (increment id st)) as [ v st' | e st' | ];
      simpl in *; [ | | exact I ];
      (eapply keeps_entries_trans;
       [ apply keeps_entries_increment | exact IH ]).
Qed.

(** A call of a memoized function that returns leaves its result in the
    dictionary, under the arguments of the call, whatever the result
    is. *)
Lemma call_lookup_f_stores (fuel : nat) (st st' : state) (g : nat)
    (f : value) (results : dict) (args : list value) (kw : kwargs)
    (res : value) :
  heap st !! g = Some (LookupF f results) ->
  call fuel (VFun g) args kw st = Ok res st' ->
  exists results' : dict,
    heap st' !! g = Some (LookupF f results') /\
    results' !! args = Some res.
Proof.
  intros Hg Hcall. destruct fuel as [ | n ]; [ discriminate | ].
  destruct kw as [ | k kw ];
    [ | rewrite (call_lookup_f_keyword _ _ _ _ _ _ _ _ Hg) in Hcall;
        discriminate ].
  destruct (forallb hashable args) eqn:Hh;
    [ | rewrite (call_lookup_f_unhashable _ _ _ _ _ _ Hg Hh) in Hcall;
        discriminate ].
  destruct (default VNone (results !! args)) eqn:E.
  1: { rewrite (call_lookup_f_miss _ _ _ _ _ _ Hg Hh E) in Hcall.
       pose proof (call_ends_grown n f args [] st) as Hgrow.
       destruct (call n f args [] st) as [ res' st'' | | ];
         try discriminate.
       injection Hcall as -> <-. simpl in Hgrow.
       destruct Hgrow as [_ Hobj].
       destruct (Hobj _ _ Hg) as (o' & Ho' & Hsame).
       destruct o' as [ | | f' r'' | | ]; simpl in Hsame;
         try discriminate.
       destruct Hsame as [-> _].
       exists (<[args := res]> r''). unfold store_result.
       rewrite Ho'. cbn [heap].
       split; [ | apply lookup_insert_eq ].
       apply list_lookup_insert_eq. eapply lookup_lt_Some; exact Ho'. }
  all: destruct (results !! args) as [ r | ] eqn:Er; simpl in E;
    [ subst r | discriminate ];
    rewrite (call_lookup_f_hit _ _ _ _ _ _ _ Hg Hh Er) in Hcall
      by discriminate;
    injection Hcall as <- <-; eauto.
Qed.

(** C10, as the source behaves.  [None] can be a stored value: when a
    call of a memoized function returns, its dictionary holds the
    returned value under the arguments of the call, whatever that value
    is, [None] included.  What every call keeps, whatever is called and
    whatever that calls in turn, and also when the call raises, is each
    entry that holds a value other than [None] when the call begins: it
    is there with the same value when the call ends. *)
Theorem C10_entries_other_than_None_are_kept (fuel : nat) (fn : value)
    (args : list value) (kw : kwargs) (st : state) :
  call fuel fn args kw st <> OutOfFuel ->
  keeps_entries st (state_after (call fuel fn args kw st) st) /\
  (forall (g : nat) (f : value) (results : dict) (res : value)
          (st' : state),
     fn = VFun g ->
     heap st !! g = Some (LookupF f results) ->
     call fuel fn args kw st = Ok res st' ->
     exists results' : dict,
       heap st' !! g = Some (LookupF f results') /\
       results' !! args = Some res).
Proof.
  intros Hend. split.
  - pose proof (call_ends_keeping fuel fn args kw st) as H.
    destruct (call fuel fn args kw st); [ exact H | exact H | congruence ].
  - intros g f results res st' -> Hg Hcall.
    exact (call_lookup_f_stores fuel st st' g f results args kw res Hg Hcall).
Qed.

(** The state after [fib(10)] of the memoized [fib], with the 11 entries
    of the values of [fib] at 0, ..., 10. *)
Lemma fib_10_cached :
  results_of
    (state_after (call_name 22 "fib" [VInt 10] [] fib_memoized) module)
    (made 0) = Some (fib_table 10).
Proof.
  destruct (memoized_fib_fresh 10 fib_memoized (made 0) fib_def 22
              fib_memoized_bound ltac:(lia) ltac:(simpl; lia)) as [H _].
  rewrite H. reflexivity.
Qed.

Lemma C10_entries_other_than_None_are_kept_witness :
  keeps_entries
    (state_after (call_name 22 "fib" [VInt 10] [] fib_memoized) module)
    (state_after
       (call 30 (VFun (made 0)) [VInt 12] []
          (state_after (call_name 22 "fib" [VInt 10] [] fib_memoized)
             module))
       (state_after (call_name 22 "fib" [VInt 10] [] fib_memoized) module)) /\
  (forall (g : nat) (f : value) (results : dict) (res : value)
          (st' : state),
     VFun (made 0) = VFun g ->
     heap (state_after (call_name 22 "fib" [VInt 10] [] fib_memoized)
             module) !! g = Some (LookupF f results) ->
     call 30 (VFun (made 0)) [VInt 12] []
       (state_after (call_name 22 "fib" [VInt 10] [] fib_memoized) module)
       = Ok res st' ->
     exists results' : dict,
       heap st' !! g = Some (LookupF f results') /\
       results' !! [VInt 12] = Some res).
Proof.
  apply (C10_entries_other_than_None_are_kept 30 (VFun (made 0)) [VInt 12] []
           (state_after (call_name 22 "fib" [VInt 10] [] fib_memoized)
              module)).
  intros H.
  assert (E : returns
                (call 30 (VFun (made 0)) [VInt 12] []
                   (state_after (call_name 22 "fib" [VInt 10] [] fib_memoized)
                      module)) (VInt 233))
    by (vm_compute; reflexivity).
  rewrite H in E. exact E.
Defined.
